(** * set-transmitter: a shallow embedding of the transmission engine

    The development follows the TypeScript sources file by file:
    [utils.ts] (validator, header composer, response interpreter),
    [retry.ts] (backoff calculator, retry policy), [types.ts] (options and
    defaults), [errors.ts] (error classes) and [transmitter.ts] (the attempt
    loop).

    Modelling conventions.
    - JavaScript strings are [string]s (sequences of 8-bit code units).
    - Status codes, attempt numbers and millisecond instants are integers
      ([Z]); backoff durations and the backoff multiplier are exact rationals
      ([Q]).  This is the arithmetic of the code within the range of
      doubles, up to rounding: the rounding of doubles, their overflow to an
      infinity and NaN are not part of the model.  [withinDoubles] says that
      a backoff computation stays in that range.
    - [Record<string,string>] objects are finite maps [gmap string string].
    - An optional property is an [option]: [None] is a property that is
      absent or [undefined].
    - Asynchronous code is sequential: every [await] is a plain call in a
      state-and-exception monad over a [World] that holds the network, the
      randomness source, the clock and the bodies already consumed.
    - The network decides how each dispatch settles: [fetch] rejects (a
      timeout abort or a connection failure) or resolves with a complete
      response, whose body can be read once.
    - [for (let attempt = 1; attempt <= maxAttempts; attempt++)] visits the
      attempts 1, 2, ..., maxAttempts in order: it is a traversal of that
      list, left by a [return] or by running to its end.
    - The platform functions that the sources call but do not define
      ([new URL], [new Date], [JSON.parse]) are the fields of a [Runtime]. *)

From Stdlib Require Import ZArith QArith Qround Qabs Qminmax Qpower Lia Lqa.
From Stdlib Require Import Ascii String.
From stdpp Require Import base option list list_numbers strings pretty gmap.

Local Open Scope Z_scope.
#[local] Set Warnings "-register-all".

(** ** String primitives of the JavaScript runtime *)

Module Js.

(** [s.split(sep)] for a one-character separator. *)
Fixpoint split (sep : ascii) (s : string) : list string :=
  match s with
  | EmptyString => [EmptyString]
  | String c rest =>
      if decide (c = sep) then EmptyString :: split sep rest
      else match split sep rest with
           | p :: ps => String c p :: ps
           | [] => [String c EmptyString]
           end
  end.

(** [parts.join(sep)]. *)
Fixpoint join (sep : ascii) (parts : list string) : string :=
  match parts with
  | [] => EmptyString
  | [p] => p
  | p :: ps => p +:+ String sep (join sep ps)
  end.

(** [s.startsWith(p)]. *)
Fixpoint startsWith (p s : string) : bool :=
  match p, s with
  | EmptyString, _ => true
  | String a p', String b s' => if decide (a = b) then startsWith p' s' else false
  | String _ _, EmptyString => false
  end.

(** [s.includes(needle)]. *)
Fixpoint includes (needle s : string) : bool :=
  startsWith needle s ||
  match s with
  | EmptyString => false
  | String _ s' => includes needle s'
  end.

(** Truthiness of a string: only the empty string is falsy. *)
Definition truthy (s : string) : bool :=
  match s with EmptyString => false | String _ _ => true end.

Fixpoint chars (s : string) : list ascii :=
  match s with
  | EmptyString => []
  | String c s' => c :: chars s'
  end.

Definition code (c : ascii) : N := N_of_ascii c.

(** [lo <= c && c <= hi] on characters. *)
Definition between (lo hi c : ascii) : bool :=
  (code lo <=? code c)%N && (code c <=? code hi)%N.
Arguments between (lo hi c)%_char_scope.

End Js.

(** ** utils.ts *)

(** The character class [[A-Za-z0-9_-]]. *)
Definition base64urlChar (c : ascii) : bool :=
  Js.between "A" "Z" c || Js.between "a" "z" c || Js.between "0" "9" c
  || bool_decide (c = "_"%char) || bool_decide (c = "-"%char).

(** [/^[A-Za-z0-9_-]+$/.test(part)]: one or more characters, all of the
    class, up to the end of the input. *)
Definition base64urlRegex_test (part : string) : bool :=
  Js.truthy part && forallb base64urlChar (Js.chars part).

(** [isValidSET].  The [typeof jwt !== 'string'] guard is discharged by the
    type of the argument. *)
Definition isValidSET (jwt : string) : bool :=
  let parts := Js.split "."%char jwt in
  if negb (length parts =? 3)%nat then false
  else forallb base64urlRegex_test parts.

(** [normalizeAuthToken]: [None] is [undefined]. *)
Definition normalizeAuthToken (token : option string) : option string :=
  match token with
  | None => None
  | Some t =>
      if negb (Js.truthy t) then None
      else if Js.startsWith "Bearer " t then Some t
      else Some ("Bearer " +:+ t)
  end.

(** [mergeHeaders]: object spread, later keys win. *)
Definition mergeHeaders (defaultHeaders : gmap string string)
    (customHeaders : option (gmap string string)) : gmap string string :=
  match customHeaders with
  | Some custom => custom ∪ defaultHeaders
  | None => defaultHeaders
  end.

(** ** errors.ts *)

Inductive ErrorClass :=
| PlainError          (* [Error] and the runtime's own subclasses *)
| TransmissionError
| TimeoutError        (* extends TransmissionError *)
| NetworkError        (* extends TransmissionError *)
| ValidationError.

#[global] Instance ErrorClass_eq_dec : EqDecision ErrorClass.
Proof. solve_decision. Defined.

(** An [Error] object: the class it was constructed from, its [name] and
    its [message] (the other fields of [TransmissionError] are never read
    by the engine). *)
Record JsError := { cls : ErrorClass; name : string; message : string }.

(** A thrown value: an [Error] object, or any other value, kept as what
    [String(value)] gives. *)
Inductive Thrown :=
| ThrowError (e : JsError)
| ThrowValue (repr : string).

Definition new_Error (msg : string) : JsError :=
  {| cls := PlainError; name := "Error"; message := msg |}.

Definition new_TransmissionError (msg : string) : JsError :=
  {| cls := TransmissionError; name := "TransmissionError"; message := msg |}.

Definition new_TimeoutError (msg : string) (timeout : Z) : JsError :=
  {| cls := TimeoutError; name := "TimeoutError";
     message := msg +:+ " (timeout: " +:+ pretty timeout +:+ "ms)" |}.

Definition new_NetworkError (msg : string) : JsError :=
  {| cls := NetworkError; name := "NetworkError"; message := msg |}.

Definition new_ValidationError (msg : string) : JsError :=
  {| cls := ValidationError; name := "ValidationError"; message := msg |}.

(** [e instanceof ValidationError]. *)
Definition instanceof_ValidationError (t : Thrown) : bool :=
  match t with
  | ThrowError e => bool_decide (cls e = ValidationError)
  | ThrowValue _ => false
  end.

(** ** types.ts *)

Module Partial.
(** [RetryConfig]: every field optional. *)
Record RetryConfig := {
  maxAttempts : option Z;
  retryableStatuses : option (list Z);
  backoffMs : option Q;
  maxBackoffMs : option Q;
  backoffMultiplier : option Q;
}.
Definition empty : RetryConfig :=
  {| maxAttempts := None; retryableStatuses := None; backoffMs := None;
     maxBackoffMs := None; backoffMultiplier := None |}.
End Partial.

(** [Required<RetryConfig>]. *)
Record RetryConfig := {
  maxAttempts : Z;
  retryableStatuses : list Z;
  backoffMs : Q;
  maxBackoffMs : Q;
  backoffMultiplier : Q;
}.

Record TransmitOptions := {
  authToken : option string;
  customHeaders : option (gmap string string);     (* [headers] *)
  timeout : option Z;
  retry : option Partial.RetryConfig;
  parseResponse : option bool;
  validateStatus : option (Z -> bool);
}.

(** The value [{}] of [TransmitOptions]. *)
Definition no_options : TransmitOptions :=
  {| authToken := None; customHeaders := None; timeout := None; retry := None;
     parseResponse := None; validateStatus := None |}.

(** Values produced by [JSON.parse]. *)
Inductive JSON :=
| JNull
| JBool (b : bool)
| JNumber (q : Q)
| JString (s : string)
| JArray (items : list JSON)
| JObject (members : list (string * JSON)).

(** [string | Record<string, unknown>]. *)
Inductive Body :=
| BodyText (text : string)
| BodyJson (value : JSON).

Inductive Status := success | failed.

Record TransmitResult := {
  status : Status;
  statusCode : Z;
  body : Body;
  headers : gmap string string;
  error : option string;
  retryable : option bool;
}.

Definition DEFAULT_RETRY_CONFIG : RetryConfig :=
  {| maxAttempts := 3;
     retryableStatuses := [429; 502; 503; 504];
     backoffMs := 1000;
     maxBackoffMs := 10000;
     backoffMultiplier := 2 |}.

Definition DEFAULT_timeout : Z := 30000.
Definition DEFAULT_parseResponse : bool := true.
Definition DEFAULT_validateStatus : Z -> bool := fun status => status <? 400.

(** ** constants.ts *)

Definition CONTENT_TYPE_SET : string := "application/secevent+jwt".
Definition CONTENT_TYPE_JSON : string := "application/json".
Definition DEFAULT_USER_AGENT : string := "SGNL-Action-Framework/1.0".

(** ** The platform: runtime functions, network, randomness, clock *)

(** Pure functions of the JavaScript platform that the sources call. *)
Class Runtime := {
  (** [new URL(s).toString()]; [None] when the constructor throws. *)
  URL_parse : string -> option string;
  (** [new Date(s).getTime()]; [None] when it is [NaN]. *)
  Date_parse : string -> option Z;
  (** [JSON.parse(s)]; [None] when it throws. *)
  JSON_parse : string -> option JSON;
}.

(** A [Headers] object, as its iteration exposes it: the names already
    lower-cased by the Fetch API, one entry per name except for
    [set-cookie], which has one entry per cookie. *)
Definition Headers := list (string * string).

(** What the server sends back for one request. *)
Record Reply := {
  reply_status : Z;
  reply_statusText : string;
  reply_headers : Headers;
  reply_body : string;
}.

(** How one call of [fetch] settles. *)
Inductive Settled :=
| Rejects (reason : Thrown)     (* timeout abort, connection failure, ... *)
| Resolves (reply : Reply).

Record Request := {
  req_url : string;
  req_method : string;
  req_headers : gmap string string;
  req_body : string;
}.

Module Response.
(** A [Response] object.  Its status line, headers and payload never
    change; whether its body stream was already read is mutable and lives
    in the world, at index [ref]. *)
Record t := {
  ref : nat;
  status : Z;
  statusText : string;
  headers : Headers;
  payload : string;
}.
End Response.

Record World := {
  network : nat -> Settled;      (* how the n-th dispatch settles *)
  requests : list Request;       (* dispatches so far, oldest first *)
  bodyUsed : list bool;          (* [bodyUsed] of every Response created *)
  entropy : nat -> Q;            (* the n-th value of [Math.random()] *)
  draws : nat;                   (* values of [entropy] already drawn *)
  clock : nat -> Z;              (* the n-th reading of [Date.now()] *)
  readings : nat;                (* readings of [clock] already taken *)
  sleeps : list Q;               (* arguments of [delay], oldest first *)
  (* the two mutable locals of [transmitSET] *)
  lastError : option JsError;
  lastResponse : option Response.t;
}.

Definition set_requests (f : list Request -> list Request) (w : World) : World :=
  {| network := network w; requests := f (requests w); bodyUsed := bodyUsed w;
     entropy := entropy w; draws := draws w; clock := clock w;
     readings := readings w; sleeps := sleeps w;
     lastError := lastError w; lastResponse := lastResponse w |}.

Definition set_bodyUsed (f : list bool -> list bool) (w : World) : World :=
  {| network := network w; requests := requests w; bodyUsed := f (bodyUsed w);
     entropy := entropy w; draws := draws w; clock := clock w;
     readings := readings w; sleeps := sleeps w;
     lastError := lastError w; lastResponse := lastResponse w |}.

Definition set_draws (f : nat -> nat) (w : World) : World :=
  {| network := network w; requests := requests w; bodyUsed := bodyUsed w;
     entropy := entropy w; draws := f (draws w); clock := clock w;
     readings := readings w; sleeps := sleeps w;
     lastError := lastError w; lastResponse := lastResponse w |}.

Definition set_readings (f : nat -> nat) (w : World) : World :=
  {| network := network w; requests := requests w; bodyUsed := bodyUsed w;
     entropy := entropy w; draws := draws w; clock := clock w;
     readings := f (readings w); sleeps := sleeps w;
     lastError := lastError w; lastResponse := lastResponse w |}.

Definition set_sleeps (f : list Q -> list Q) (w : World) : World :=
  {| network := network w; requests := requests w; bodyUsed := bodyUsed w;
     entropy := entropy w; draws := draws w; clock := clock w;
     readings := readings w; sleeps := f (sleeps w);
     lastError := lastError w; lastResponse := lastResponse w |}.

Definition set_lastError (e : option JsError) (w : World) : World :=
  {| network := network w; requests := requests w; bodyUsed := bodyUsed w;
     entropy := entropy w; draws := draws w; clock := clock w;
     readings := readings w; sleeps := sleeps w;
     lastError := e; lastResponse := lastResponse w |}.

Definition set_lastResponse (r : option Response.t) (w : World) : World :=
  {| network := network w; requests := requests w; bodyUsed := bodyUsed w;
     entropy := entropy w; draws := draws w; clock := clock w;
     readings := readings w; sleeps := sleeps w;
     lastError := lastError w; lastResponse := r |}.

(** ** The monad of effectful code: state plus exceptions *)

Inductive Completion (A : Type) :=
| Normal (a : A)
| Abrupt (t : Thrown).
Arguments Normal {A} a.
Arguments Abrupt {A} t.

Definition M (A : Type) : Type := World -> Completion A * World.

Definition ret {A} (a : A) : M A := fun w => (Normal a, w).

Definition bind {A B} (m : M A) (k : A -> M B) : M B :=
  fun w => match m w with
           | (Normal a, w') => k a w'
           | (Abrupt t, w') => (Abrupt t, w')
           end.

Definition throw {A} (t : Thrown) : M A := fun w => (Abrupt t, w).

(** [try { m } catch (error) { handler error }]: the state reached when the
    exception is thrown is the state the handler starts from. *)
Definition try_catch {A} (m : M A) (handler : Thrown -> M A) : M A :=
  fun w => match m w with
           | (Normal a, w') => (Normal a, w')
           | (Abrupt t, w') => handler t w'
           end.

Definition gets {A} (f : World -> A) : M A := fun w => (Normal (f w), w).
Definition modify (f : World -> World) : M unit := fun w => (Normal tt, f w).

Declare Scope js_scope.
Delimit Scope js_scope with js.
Notation "x <- m ;; k" := (bind m (fun x => k))
  (at level 100, m at next level, right associativity) : js_scope.
Notation "m ;; k" := (bind m (fun _ => k))
  (at level 100, right associativity) : js_scope.
Local Open Scope js_scope.

(** *** Effectful platform calls *)

(** [fetch(url, {method, headers, body, signal})].  The dispatch is logged and
    settles as the network dictates; a resolved call creates a fresh
    [Response] whose body has not been read.  The abort signal is part of
    the network's verdict: a timeout is a rejection with an [AbortError]. *)
Definition fetch (url method : string) (hdrs : gmap string string)
    (payload : string) : M Response.t :=
  fun w =>
    let rq := {| req_url := url; req_method := method; req_headers := hdrs;
                 req_body := payload |} in
    let w1 := set_requests (fun l => l ++ [rq]) w in
    match network w (length (requests w)) with
    | Rejects reason => (Abrupt reason, w1)
    | Resolves reply =>
        (Normal {| Response.ref := length (bodyUsed w);
                   Response.status := reply_status reply;
                   Response.statusText := reply_statusText reply;
                   Response.headers := reply_headers reply;
                   Response.payload := reply_body reply |},
         set_bodyUsed (fun l => l ++ [false]) w1)
    end.

Definition body_unusable : JsError :=
  {| cls := PlainError; name := "TypeError";
     message := "Body is unusable: Body has already been read" |}.

(** [response.text()]: the payload on the first call, a [TypeError] on any
    later call on the same object. *)
Definition Response_text (response : Response.t) : M string :=
  fun w =>
    match bodyUsed w !! Response.ref response with
    | Some false =>
        (Normal (Response.payload response),
         set_bodyUsed (fun l => <[Response.ref response := true]> l) w)
    | _ => (Abrupt (ThrowError body_unusable), w)
    end.

Definition toLowerCase_char (c : ascii) : ascii :=
  if Js.between "A" "Z" c then ascii_of_N (Js.code c + 32) else c.

Fixpoint toLowerCase (s : string) : string :=
  match s with
  | EmptyString => EmptyString
  | String c s' => String (toLowerCase_char c) (toLowerCase s')
  end.

(** [headers.get(name)]: names compare case-insensitively. *)
Definition Headers_get (hs : Headers) (name : string) : option string :=
  snd <$> List.find (fun kv => bool_decide (fst kv = toLowerCase name)) hs.

(** [Math.random()]. *)
Definition Math_random : M Q :=
  fun w => (Normal (entropy w (draws w)), set_draws S w).

(** [Date.now()]. *)
Definition Date_now : M Z :=
  fun w => (Normal (clock w (readings w)), set_readings S w).

(** *** Numbers *)

Module Num.
(** [a > b] on numbers. *)
Definition gt (a b : Q) : bool := negb (Qle_bool a b).
(** [Math.min], [Math.pow] (integer exponent), [Math.floor]. *)
Definition min (a b : Q) : Q := Qmin a b.
Definition pow (base : Q) (exponent : Z) : Q := Qpower base exponent.
Definition floor (x : Q) : Q := inject_Z (Qfloor x).

Definition isWhiteSpace (c : ascii) : bool :=
  bool_decide (Js.code c ∈ [9; 10; 11; 12; 13; 32; 160]%N).
Definition isDigit (c : ascii) : bool := Js.between "0" "9" c.
Definition digit (c : ascii) : Z := Z.of_N (Js.code c) - 48.

Fixpoint trimStart (s : string) : string :=
  match s with
  | String c s' => if isWhiteSpace c then trimStart s' else s
  | EmptyString => s
  end.

(** The longest run of decimal digits at the head of [s], as a number;
    [None] when there is no digit. *)
Fixpoint digits (acc : option Z) (s : string) : option Z :=
  match s with
  | String c s' =>
      if isDigit c then digits (Some (10 * default 0 acc + digit c)) s'
      else acc
  | EmptyString => acc
  end.

(** [parseInt(s, 10)]; [None] is [NaN]. *)
Definition parseInt (s : string) : option Z :=
  match trimStart s with
  | String "-" rest => Z.opp <$> digits None rest
  | String "+" rest => digits None rest
  | rest => digits None rest
  end.
End Num.

Section Engine.
Context `{Runtime}.

(** ** utils.ts, continued: the response interpreter *)

(** [result[key] = value] on the plain object [result].  Under the key
    [__proto__] the assignment reaches the accessor that every plain object
    inherits, whose setter ignores a string: nothing is stored. *)
Definition parseResponseHeaders (hs : Headers) : gmap string string :=
  fold_left
    (fun result kv =>
       if bool_decide (fst kv = "__proto__") then result
       else <[fst kv := snd kv]> result)
    hs ∅.

Definition parseResponseBody (response : Response.t) (parseJson : bool)
    : M Body :=
  text <- Response_text response ;;
  if negb parseJson || negb (Js.truthy text) then ret (BodyText text)
  else
    let contentType := Headers_get (Response.headers response) "content-type" in
    match contentType with
    | Some ct =>
        if Js.includes "application/json" ct then
          match JSON_parse text with
          | Some value => ret (BodyJson value)
          | None => ret (BodyText text)
          end
        else ret (BodyText text)
    | None => ret (BodyText text)
    end.

(** ** retry.ts *)

Definition calculateBackoff (attempt : Z) (config : RetryConfig)
    (retryAfterMs : option Q) : M Q :=
  let jittered : M Q :=
    let exponentialDelay :=
      (backoffMs config * Num.pow (backoffMultiplier config) (attempt - 1))%Q in
    let clampedDelay := Num.min exponentialDelay (maxBackoffMs config) in
    let jitter := (clampedDelay * (1 # 4))%Q in
    let minDelay := (clampedDelay - jitter)%Q in
    let maxDelay := (clampedDelay + jitter)%Q in
    random <- Math_random ;;
    ret (Num.floor (random * (maxDelay - minDelay) + minDelay)%Q) in
  match retryAfterMs with
  | Some hint =>
      if Num.gt hint 0 then ret (Num.min hint (maxBackoffMs config))
      else jittered
  | None => jittered
  end.

Definition parseRetryAfter (retryAfterHeader : option string)
    : M (option Z) :=
  match retryAfterHeader with
  | None => ret None
  | Some header =>
      if negb (Js.truthy header) then ret None
      else
        match Num.parseInt header with
        | Some delaySeconds => ret (Some (delaySeconds * 1000))
        | None =>
            match Date_parse header with
            | Some retryDate =>
                now <- Date_now ;;
                let delayMs := retryDate - now in
                ret (if 0 <? delayMs then Some delayMs else None)
            | None => ret None
            end
        end
  end.

Definition isRetryableStatus (statusCode : Z) (statuses : list Z) : bool :=
  bool_decide (statusCode ∈ statuses).

Definition shouldRetry (statusCode : option Z) (attempt : Z)
    (config : RetryConfig) : bool :=
  if attempt >=? maxAttempts config then false
  else match statusCode with
       | None => true
       | Some code => isRetryableStatus code (retryableStatuses config)
       end.

(** [delay(ms)]: the call is suspended; the model records the wait. *)
Definition delay (ms : Q) : M unit :=
  modify (set_sleeps (fun l => l ++ [ms])).

End Engine.

(** ** transmitter.ts *)

(** The options of one call, merged over the defaults. *)
Record MergedOptions := {
  merged_authToken : option string;
  merged_headers : gmap string string;
  merged_timeout : Z;
  merged_parseResponse : bool;
  merged_validateStatus : Z -> bool;
  merged_retry : RetryConfig;
}.

(** [{...DEFAULT_RETRY_CONFIG, ...(options.retry || {})}]. *)
Definition mergeRetry (retry : option Partial.RetryConfig) : RetryConfig :=
  let given := default Partial.empty retry in
  {| maxAttempts :=
       default (maxAttempts DEFAULT_RETRY_CONFIG) (Partial.maxAttempts given);
     retryableStatuses :=
       default (retryableStatuses DEFAULT_RETRY_CONFIG)
               (Partial.retryableStatuses given);
     backoffMs :=
       default (backoffMs DEFAULT_RETRY_CONFIG) (Partial.backoffMs given);
     maxBackoffMs :=
       default (maxBackoffMs DEFAULT_RETRY_CONFIG) (Partial.maxBackoffMs given);
     backoffMultiplier :=
       default (backoffMultiplier DEFAULT_RETRY_CONFIG)
               (Partial.backoffMultiplier given) |}.

Definition mergeOptions (options : TransmitOptions) : MergedOptions :=
  {| merged_authToken := authToken options;
     merged_headers := default ∅ (customHeaders options);
     merged_timeout := default DEFAULT_timeout (timeout options);
     merged_parseResponse := default DEFAULT_parseResponse (parseResponse options);
     merged_validateStatus :=
       default DEFAULT_validateStatus (validateStatus options);
     merged_retry := mergeRetry (retry options) |}.

(** The request headers: fixed headers, then the normalised authorisation,
    then the caller's overrides. *)
Definition requestHeaders (mergedOptions : MergedOptions) : gmap string string :=
  let baseHeaders : gmap string string :=
    <["User-Agent" := DEFAULT_USER_AGENT]>
      (<["Accept" := CONTENT_TYPE_JSON]>
        (<["Content-Type" := CONTENT_TYPE_SET]> ∅)) in
  let baseHeaders :=
    match normalizeAuthToken (merged_authToken mergedOptions) with
    | Some token =>
        if Js.truthy token then <["Authorization" := token]> baseHeaders
        else baseHeaders
    | None => baseHeaders
    end in
  mergeHeaders baseHeaders (Some (merged_headers mergedOptions)).

(** [`HTTP ${response.status}: ${response.statusText}`]. *)
Definition httpError (response : Response.t) : string :=
  "HTTP " +:+ pretty (Response.status response) +:+ ": "
  +:+ Response.statusText response.

(** How one pass through the body of the [for] loop ends, when it does not
    throw: with a [return] of the whole function, or by reaching the end of
    the body. *)
Inductive Step :=
| Return (result : TransmitResult)
| Continue.

(** [for (const attempt of attempts) body(attempt)]; [None] when the loop
    runs to its end. *)
Fixpoint for_each (attempts : list Z) (body : Z -> M Step)
    : M (option TransmitResult) :=
  match attempts with
  | [] => ret None
  | attempt :: rest =>
      step <- body attempt ;;
      match step with
      | Return result => ret (Some result)
      | Continue => for_each rest body
      end
  end.

Section Transmitter.
Context `{Runtime}.

(** The [catch] of the inner [try]: how a failed dispatch is recorded. *)
Definition transportError (mergedOptions : MergedOptions) (error : Thrown)
    : JsError :=
  match error with
  | ThrowError e =>
      if bool_decide (name e = "AbortError") then
        new_TimeoutError "Request timed out" (merged_timeout mergedOptions)
      else new_NetworkError ("Network error: " +:+ message e)
  | ThrowValue _ => new_NetworkError "Unknown network error"
  end.

(** The body of the [for] loop (transmitter.ts, lines 71-151). *)
Definition attemptOnce (jwt href : string) (mergedOptions : MergedOptions)
    (hdrs : gmap string string) (attempt : Z) : M Step :=
  try_catch
    (try_catch
       (response <- fetch href "POST" hdrs jwt ;;
        modify (set_lastResponse (Some response)) ;;
        let responseHeaders := parseResponseHeaders (Response.headers response) in
        responseBody <-
          parseResponseBody response (merged_parseResponse mergedOptions) ;;
        let isSuccess :=
          merged_validateStatus mergedOptions (Response.status response) in
        if isSuccess then
          ret (Return {| status := success;
                         statusCode := Response.status response;
                         body := responseBody;
                         headers := responseHeaders;
                         error := None;
                         retryable := None |})
        else
          let canRetry :=
            shouldRetry (Some (Response.status response)) attempt
                        (merged_retry mergedOptions) in
          if negb canRetry then
            ret (Return {| status := failed;
                           statusCode := Response.status response;
                           body := responseBody;
                           headers := responseHeaders;
                           error := Some (httpError response);
                           retryable :=
                             Some (bool_decide
                                     (Response.status response
                                      ∈ retryableStatuses
                                          (merged_retry mergedOptions))) |})
          else
            retryAfterMs <- parseRetryAfter (responseHeaders !! "retry-after") ;;
            backoff <-
              calculateBackoff attempt (merged_retry mergedOptions)
                               (inject_Z <$> retryAfterMs) ;;
            delay backoff ;;
            ret Continue)
       (fun error =>
          let failure := transportError mergedOptions error in
          modify (set_lastError (Some failure)) ;;
          if negb (shouldRetry None attempt (merged_retry mergedOptions)) then
            throw (ThrowError failure)
          else
            backoff <-
              calculateBackoff attempt (merged_retry mergedOptions) None ;;
            delay backoff ;;
            ret Continue))
    (fun error =>
       if instanceof_ValidationError error then throw error
       else
         modify (set_lastError
                   (Some match error with
                         | ThrowError e => e
                         | ThrowValue repr => new_Error repr
                         end)) ;;
         ret Continue).

(** After the loop (transmitter.ts, lines 154-180). *)
Definition afterLoop (mergedOptions : MergedOptions) : M TransmitResult :=
  last <- gets lastResponse ;;
  match last with
  | Some response =>
      let responseHeaders := parseResponseHeaders (Response.headers response) in
      responseBody <-
        try_catch
          (parseResponseBody response (merged_parseResponse mergedOptions))
          (fun _ => ret (BodyText EmptyString)) ;;
      failure <- gets lastError ;;
      ret {| status := failed;
             statusCode := Response.status response;
             body := responseBody;
             headers := responseHeaders;
             error :=
               Some match failure with
                    | Some e =>
                        if Js.truthy (message e) then message e
                        else httpError response
                    | None => httpError response
                    end;
             retryable := Some true |}
  | None =>
      failure <- gets lastError ;;
      throw (ThrowError
               (default
                  (new_TransmissionError
                     "Failed to transmit SET after all retry attempts")
                  failure))
  end.

Definition transmitSET (jwt url : string) (options : TransmitOptions)
    : M TransmitResult :=
  if negb (isValidSET jwt) then
    throw (ThrowError
             (new_ValidationError
                "Invalid SET format: JWT must be in format header.payload.signature"))
  else
    match URL_parse url with
    | None => throw (ThrowError (new_ValidationError ("Invalid URL: " +:+ url)))
    | Some href =>
        let mergedOptions := mergeOptions options in
        let hdrs := requestHeaders mergedOptions in
        modify (set_lastError None) ;;
        modify (set_lastResponse None) ;;
        returned <-
          for_each (seqZ 1 (maxAttempts (merged_retry mergedOptions)))
                   (attemptOnce jwt href mergedOptions hdrs) ;;
        match returned with
        | Some result => ret result
        | None => afterLoop mergedOptions
        end
    end.

End Transmitter.

(** ** transmitter.ts, continued: the transmitter factory *)

(** One optional property of [{...earlier, ...later}]: the later object wins
    when it has the property. *)
Definition spread {A} (earlier later : option A) : option A :=
  match later with
  | Some v => Some v
  | None => earlier
  end.

(** [{...earlier, ...later}] on retry configurations. *)
Definition spreadRetry (earlier later : Partial.RetryConfig)
    : Partial.RetryConfig :=
  {| Partial.maxAttempts :=
       spread (Partial.maxAttempts earlier) (Partial.maxAttempts later);
     Partial.retryableStatuses :=
       spread (Partial.retryableStatuses earlier)
              (Partial.retryableStatuses later);
     Partial.backoffMs :=
       spread (Partial.backoffMs earlier) (Partial.backoffMs later);
     Partial.maxBackoffMs :=
       spread (Partial.maxBackoffMs earlier) (Partial.maxBackoffMs later);
     Partial.backoffMultiplier :=
       spread (Partial.backoffMultiplier earlier)
              (Partial.backoffMultiplier later) |}.

(** The [mergedOptions] of [createTransmitter] (transmitter.ts, lines
    187-198); [None] is an argument that was left out.  The spreads of the
    two option objects come first, then [headers] and [retry] are set to
    the entry-wise combinations. *)
Definition transmitterOptions (defaultOptions options : option TransmitOptions)
    : TransmitOptions :=
  {| authToken := spread (defaultOptions ≫= authToken) (options ≫= authToken);
     customHeaders :=
       Some (default ∅ (options ≫= customHeaders)
             ∪ default ∅ (defaultOptions ≫= customHeaders));
     timeout := spread (defaultOptions ≫= timeout) (options ≫= timeout);
     retry :=
       Some (spreadRetry (default Partial.empty (defaultOptions ≫= retry))
                         (default Partial.empty (options ≫= retry)));
     parseResponse :=
       spread (defaultOptions ≫= parseResponse) (options ≫= parseResponse);
     validateStatus :=
       spread (defaultOptions ≫= validateStatus) (options ≫= validateStatus) |}.

Section Factory.
Context `{Runtime}.

(** [createTransmitter(defaultOptions)]: the function it returns. *)
Definition createTransmitter (defaultOptions : option TransmitOptions)
    : string -> string -> option TransmitOptions -> M TransmitResult :=
  fun jwt url options =>
    let mergedOptions := transmitterOptions defaultOptions options in
    transmitSET jwt url mergedOptions.

End Factory.

(** ** A reference runtime

    Executable stand-ins for the platform functions, used to run the engine
    on concrete inputs: a JSON reader for the grammar of RFC 8259, a reader
    of IMF-fixdate timestamps (the preferred HTTP-date format), and a
    recogniser of [https] URLs.  The theorems below hold for every
    [Runtime]; this one instantiates them. *)

Module Reference.

Definition isJsonSpace (c : ascii) : bool :=
  bool_decide (Js.code c ∈ [9; 10; 13; 32]%N).

Fixpoint skip (s : string) : string :=
  match s with
  | String c s' => if isJsonSpace c then skip s' else s
  | EmptyString => s
  end.

Fixpoint drop (n : nat) (s : string) : string :=
  match n, s with
  | S n', String _ s' => drop n' s'
  | _, _ => s
  end.

(** The digits at the head of [s], and what follows them. *)
Fixpoint span (s : string) : list Z * string :=
  match s with
  | String c s' =>
      if Num.isDigit c then let '(ds, rest) := span s' in (Num.digit c :: ds, rest)
      else ([], s)
  | EmptyString => ([], s)
  end.

Definition decimal (ds : list Z) : Z := fold_left (fun acc d => 10 * acc + d) ds 0.

Definition hex (c : ascii) : option Z :=
  if Num.isDigit c then Some (Num.digit c)
  else if Js.between "a" "f" c then Some (Z.of_N (Js.code c) - 87)
  else if Js.between "A" "F" c then Some (Z.of_N (Js.code c) - 55)
  else None.

Definition byte (n : Z) : ascii := ascii_of_N (Z.to_N n).

(** UTF-8 encoding of a code point below 65536. *)
Definition utf8 (cp : Z) (tail : string) : string :=
  if cp <? 128 then String (byte cp) tail
  else if cp <? 2048 then
    String (byte (192 + cp / 64)) (String (byte (128 + cp mod 64)) tail)
  else
    String (byte (224 + cp / 4096))
      (String (byte (128 + (cp / 64) mod 64))
         (String (byte (128 + cp mod 64)) tail)).

(** The double quote character. *)
Definition dquote : ascii := ascii_of_N 34.

(** The characters of a string literal, after its opening quote. *)
Fixpoint characters (s : string) : option (string * string) :=
  match s with
  | EmptyString => None
  | String c rest =>
      if bool_decide (c = dquote) then Some (EmptyString, rest)
      else if bool_decide (c = "\"%char) then
        match rest with
        | EmptyString => None
        | String e rest =>
            let plain (c : ascii) :=
              match characters rest with
              | Some (text, rest') => Some (String c text, rest')
              | None => None
              end in
            if bool_decide (e = dquote) then plain dquote
            else if bool_decide (e = "\"%char) then plain "\"%char
            else if bool_decide (e = "/"%char) then plain "/"%char
            else if bool_decide (e = "b"%char) then plain (byte 8)
            else if bool_decide (e = "f"%char) then plain (byte 12)
            else if bool_decide (e = "n"%char) then plain (byte 10)
            else if bool_decide (e = "r"%char) then plain (byte 13)
            else if bool_decide (e = "t"%char) then plain (byte 9)
            else if bool_decide (e = "u"%char) then
              match rest with
              | String h1 (String h2 (String h3 (String h4 rest'))) =>
                  match hex h1, hex h2, hex h3, hex h4, characters rest' with
                  | Some a, Some b, Some c, Some d, Some (text, rest'') =>
                      Some (utf8 (((a * 16 + b) * 16 + c) * 16 + d) text, rest'')
                  | _, _, _, _, _ => None
                  end
              | _ => None
              end
            else None
        end
      else if (Js.code c <? 32)%N then None
      else match characters rest with
           | Some (text, rest') => Some (String c text, rest')
           | None => None
           end
  end.

(** [-? int frac? exp?]; a leading zero stands alone. *)
Definition number (s : string) : option (Q * string) :=
  let '(negative, s1) :=
    match s with String "-" r => (true, r) | _ => (false, s) end in
  let '(int, s2) := span s1 in
  match int with
  | [] => None
  | 0 :: _ :: _ => None
  | _ =>
      let fraction :=
        match s2 with
        | String "." r =>
            match span r with
            | ([], _) => None
            | (ds, r') => Some (ds, r')
            end
        | _ => Some ([], s2)
        end in
      match fraction with
      | None => None
      | Some (frac, s3) =>
          let exponent :=
            match s3 with
            | String e r =>
                if bool_decide (e = "e"%char) || bool_decide (e = "E"%char) then
                  let '(minus, r1) :=
                    match r with
                    | String "-" r' => (true, r')
                    | String "+" r' => (false, r')
                    | _ => (false, r)
                    end in
                  match span r1 with
                  | ([], _) => None
                  | (ds, r') =>
                      Some (if minus : bool then - decimal ds else decimal ds, r')
                  end
                else Some (0, s3)
            | EmptyString => Some (0, s3)
            end in
          match exponent with
          | None => None
          | Some (e, s4) =>
              let mantissa := decimal (int ++ frac) in
              let signed := if negative : bool then - mantissa else mantissa in
              Some (Qred (inject_Z signed
                          * Qpower 10 (e - Z.of_nat (length frac))), s4)
          end
      end
  end.

Fixpoint value (fuel : nat) (s : string) : option (JSON * string) :=
  match fuel with
  | O => None
  | S fuel' =>
      match skip s with
      | String "[" rest =>
          match skip rest with
          | String "]" rest' => Some (JArray [], rest')
          | _ => match elements fuel' rest with
                 | Some (items, rest') => Some (JArray items, rest')
                 | None => None
                 end
          end
      | String "{" rest =>
          match skip rest with
          | String "}" rest' => Some (JObject [], rest')
          | _ => match members fuel' rest with
                 | Some (ms, rest') => Some (JObject ms, rest')
                 | None => None
                 end
          end
      | s' =>
          if Js.startsWith (String dquote EmptyString) s' then
            match characters (drop 1 s') with
            | Some (text, rest') => Some (JString text, rest')
            | None => None
            end
          else if Js.startsWith "null" s' then Some (JNull, drop 4 s')
          else if Js.startsWith "true" s' then Some (JBool true, drop 4 s')
          else if Js.startsWith "false" s' then Some (JBool false, drop 5 s')
          else match number s' with
               | Some (q, rest) => Some (JNumber q, rest)
               | None => None
               end
      end
  end
with elements (fuel : nat) (s : string) : option (list JSON * string) :=
  match fuel with
  | O => None
  | S fuel' =>
      match value fuel' s with
      | Some (v, rest) =>
          match skip rest with
          | String "]" rest' => Some ([v], rest')
          | String "," rest' =>
              match elements fuel' rest' with
              | Some (vs, rest'') => Some (v :: vs, rest'')
              | None => None
              end
          | _ => None
          end
      | None => None
      end
  end
with members (fuel : nat) (s : string)
    : option (list (string * JSON) * string) :=
  match fuel with
  | O => None
  | S fuel' =>
      match skip s with
      | String c rest =>
          if negb (bool_decide (c = dquote)) then None else
          match characters rest with
          | Some (key, rest1) =>
              match skip rest1 with
              | String ":" rest2 =>
                  match value fuel' rest2 with
                  | Some (v, rest3) =>
                      match skip rest3 with
                      | String "}" rest' => Some ([(key, v)], rest')
                      | String "," rest' =>
                          match members fuel' rest' with
                          | Some (ms, rest'') => Some ((key, v) :: ms, rest'')
                          | None => None
                          end
                      | _ => None
                      end
                  | None => None
                  end
              | _ => None
              end
          | None => None
          end
      | _ => None
      end
  end.

Definition JSON_parse (text : string) : option JSON :=
  match value (2 * String.length text + 2) text with
  | Some (v, rest) =>
      match skip rest with
      | EmptyString => Some v
      | String _ _ => None
      end
  | None => None
  end.

(** *** IMF-fixdate, e.g. [Sun, 06 Nov 1994 08:49:37 GMT] *)

Definition field (start len : nat) (s : string) : string :=
  String.substring start len s.

Definition numeral (s : string) : option Z :=
  if Js.truthy s && forallb Num.isDigit (Js.chars s)
  then Some (decimal (Num.digit <$> Js.chars s)) else None.

Definition dayNames : list string :=
  ["Mon"; "Tue"; "Wed"; "Thu"; "Fri"; "Sat"; "Sun"].
Definition monthNames : list string :=
  ["Jan"; "Feb"; "Mar"; "Apr"; "May"; "Jun";
   "Jul"; "Aug"; "Sep"; "Oct"; "Nov"; "Dec"].

Fixpoint indexOf (x : string) (l : list string) : option Z :=
  match l with
  | [] => None
  | y :: l' => if bool_decide (x = y) then Some 0 else Z.succ <$> indexOf x l'
  end.

(** Days from 1970-01-01 to the given day of the proleptic Gregorian
    calendar. *)
Definition daysFromCivil (year month day : Z) : Z :=
  let y := if month <=? 2 then year - 1 else year in
  let era := y / 400 in
  let yoe := y - era * 400 in
  let doy := (153 * (if month <=? 2 then month + 9 else month - 3) + 2) / 5
             + day - 1 in
  let doe := yoe * 365 + yoe / 4 - yoe / 100 + doy in
  era * 146097 + doe - 719468.

Definition Date_parse (s : string) : option Z :=
  if negb (String.length s =? 29)%nat then None
  else if negb (bool_decide (field 3 2 s = ", " ∧ field 7 1 s = " "
                             ∧ field 11 1 s = " " ∧ field 16 1 s = " "
                             ∧ field 19 1 s = ":" ∧ field 22 1 s = ":"
                             ∧ field 25 4 s = " GMT")) then None
  else
    match indexOf (field 0 3 s) dayNames, numeral (field 5 2 s),
          indexOf (field 8 3 s) monthNames, numeral (field 12 4 s),
          numeral (field 17 2 s), numeral (field 20 2 s),
          numeral (field 23 2 s) with
    | Some _, Some day, Some month, Some year, Some hh, Some mm, Some ss =>
        if (1 <=? day) && (day <=? 31) && (hh <? 24) && (mm <? 60) && (ss <? 60)
        then Some ((((daysFromCivil year (month + 1) day * 24 + hh) * 60 + mm)
                    * 60 + ss) * 1000)
        else None
    | _, _, _, _, _, _, _ => None
    end.

(** *** Absolute [http(s)] URLs without whitespace; an empty path is
    serialised as [/]. *)
Definition URL_parse (s : string) : option string :=
  let rest :=
    if Js.startsWith "https://" s then Some (drop 8 s)
    else if Js.startsWith "http://" s then Some (drop 7 s)
    else None in
  match rest with
  | Some r =>
      if Js.truthy r && negb (existsb Num.isWhiteSpace (Js.chars r))
         && negb (Js.startsWith "/" r)
      then Some (if Js.includes "/" r then s else s +:+ "/")
      else None
  | None => None
  end.

Definition runtime : Runtime :=
  Build_Runtime URL_parse Date_parse JSON_parse.

End Reference.

(** * Specification vocabulary *)

(** The URL-safe base64 alphabet, character by character. *)
Definition urlSafe (c : ascii) : Prop :=
  let n := Js.code c in
  ((65 <= n <= 90) ∨ (97 <= n <= 122) ∨ (48 <= n <= 57) ∨ n = 95 ∨ n = 45)%N.

(** A token segment: not empty, URL-safe characters only. *)
Definition segment (part : string) : Prop :=
  part ≠ EmptyString ∧ ∀ c, c ∈ Js.chars part → urlSafe c.

(** [needle] occurs in [s]. *)
Definition occursIn (needle s : string) : Prop :=
  ∃ before after, s = before +:+ needle +:+ after.

(** A string made of decimal digits only, at least one. *)
Definition numeric (s : string) : bool :=
  Js.truthy s && forallb Num.isDigit (Js.chars s).

(** The spec's invariant on a retry configuration. *)
Definition wellFormed (config : RetryConfig) : Prop :=
  1 <= maxAttempts config ∧ (backoffMs config <= maxBackoffMs config)%Q.

(** A world in which nothing has happened yet. *)
Definition initial (net : nat -> Settled) (ent : nat -> Q) (clk : nat -> Z)
    : World :=
  {| network := net; requests := []; bodyUsed := [];
     entropy := ent; draws := 0; clock := clk; readings := 0; sleeps := [];
     lastError := None; lastResponse := None |}.

(** How the [i]-th dispatch counted from world [w] settles. *)
Definition upcoming (w : World) (i : nat) : Settled :=
  network w (length (requests w) + i).

(** Dispatches made between two worlds. *)
Definition dispatched (w w' : World) : nat :=
  length (requests w') - length (requests w).

(** The [Response] object that [fetch] creates in world [w] for a reply. *)
Definition responseOf (w : World) (reply : Reply) : Response.t :=
  {| Response.ref := length (bodyUsed w);
     Response.status := reply_status reply;
     Response.statusText := reply_statusText reply;
     Response.headers := reply_headers reply;
     Response.payload := reply_body reply |}.

(** A reply with the given status, no headers and an empty body. *)
Definition bare (code : Z) : Reply :=
  {| reply_status := code; reply_statusText := EmptyString;
     reply_headers := []; reply_body := EmptyString |}.

(** A connection-level failure of [fetch]. *)
Definition connectionRefused : Thrown :=
  ThrowError {| cls := PlainError; name := "TypeError";
                message := "fetch failed" |}.

(** The options [{ retry: { maxAttempts: n } }]. *)
Definition withMaxAttempts (n : Z) : TransmitOptions :=
  {| authToken := None; customHeaders := None; timeout := None;
     retry := Some {| Partial.maxAttempts := Some n;
                      Partial.retryableStatuses := None;
                      Partial.backoffMs := None;
                      Partial.maxBackoffMs := None;
                      Partial.backoffMultiplier := None |};
     parseResponse := None; validateStatus := None |}.

(** The reply a [Response] object was created from. *)
Definition replyOf (r : Response.t) : Reply :=
  {| reply_status := Response.status r;
     reply_statusText := Response.statusText r;
     reply_headers := Response.headers r;
     reply_body := Response.payload r |}.

(** The world in which the loop starts: both locals undefined. *)
Definition entered (w : World) : World :=
  set_lastResponse None (set_lastError None w).

(** [idle w w']: between [w] and [w'] the call only waited, drew random
    numbers or read the clock. *)
Definition idle (w w' : World) : Prop :=
  network w' = network w ∧ requests w' = requests w
  ∧ bodyUsed w' = bodyUsed w ∧ lastError w' = lastError w
  ∧ lastResponse w' = lastResponse w.

(** The state a rejected dispatch leaves behind. *)
Definition afterReject (mergedOptions : MergedOptions) (reason : Thrown)
    (w w' : World) : Prop :=
  network w' = network w
  ∧ length (requests w') = S (length (requests w))
  ∧ bodyUsed w' = bodyUsed w
  ∧ lastResponse w' = lastResponse w
  ∧ lastError w' = Some (transportError mergedOptions reason).

(** The state a resolved dispatch leaves behind. *)
Definition afterReply (reply : Reply) (w w' : World) : Prop :=
  network w' = network w
  ∧ length (requests w') = S (length (requests w))
  ∧ bodyUsed w' = bodyUsed w ++ [true]
  ∧ lastResponse w' = Some (responseOf w reply)
  ∧ lastError w' = lastError w.

Section Vocabulary.
Context `{Runtime}.

(** What [parseResponseBody] makes of a body text that was read. *)
Definition interpreted (parseJson : bool) (hs : Headers) (text : string)
    : Body :=
  if negb parseJson || negb (Js.truthy text) then BodyText text
  else match Headers_get hs "content-type" with
       | Some ct =>
           if Js.includes "application/json" ct then
             match JSON_parse text with
             | Some value => BodyJson value
             | None => BodyText text
             end
           else BodyText text
       | None => BodyText text
       end.

(** The Outcome reported for an accepted reply. *)
Definition successOf (mergedOptions : MergedOptions) (reply : Reply)
    : TransmitResult :=
  {| status := success;
     statusCode := reply_status reply;
     body := interpreted (merged_parseResponse mergedOptions)
                         (reply_headers reply) (reply_body reply);
     headers := parseResponseHeaders (reply_headers reply);
     error := None;
     retryable := None |}.

(** The Outcome reported for a reply that ends the call inside the loop
    without being accepted. *)
Definition failureOf (mergedOptions : MergedOptions) (reply : Reply)
    : TransmitResult :=
  {| status := failed;
     statusCode := reply_status reply;
     body := interpreted (merged_parseResponse mergedOptions)
                         (reply_headers reply) (reply_body reply);
     headers := parseResponseHeaders (reply_headers reply);
     error := Some ("HTTP " +:+ pretty (reply_status reply) +:+ ": "
                    +:+ reply_statusText reply);
     retryable :=
       Some (bool_decide (reply_status reply
                          ∈ retryableStatuses (merged_retry mergedOptions))) |}.

(** The dispatch at attempt number [attempt] is followed by another pass
    through the loop body: it was rejected, or its reply was neither
    accepted nor final. *)
Definition continues (mergedOptions : MergedOptions) (attempt : Z)
    (s : Settled) : Prop :=
  match s with
  | Rejects _ => True
  | Resolves reply =>
      merged_validateStatus mergedOptions (reply_status reply) = false
      ∧ shouldRetry (Some (reply_status reply)) attempt
                    (merged_retry mergedOptions) = true
  end.

Definition rejected (s : Settled) : Prop := ∃ reason, s = Rejects reason.

End Vocabulary.

(** The clamped exponential delay of an attempt. *)
Definition clampedDelay (attempt : Z) (config : RetryConfig) : Q :=
  Qmin (backoffMs config * Qpower (backoffMultiplier config) (attempt - 1))
       (maxBackoffMs config).

(** The numbers that [calculateBackoff] computes for an attempt stay well
    within the range of doubles: the attempt number is at least 1, and the
    power, the exponential delay and maxBackoffMs are at most 2^1023 in
    absolute value.  There no operation overflows to an infinity or gives
    NaN, and the exact arithmetic of the model is that of the code up to
    rounding. *)
Definition withinDoubles (attempt : Z) (config : RetryConfig) : Prop :=
  let power := Qpower (backoffMultiplier config) (attempt - 1) in
  1 <= attempt
  ∧ (Qabs power <= 2 ^ 1023)%Q
  ∧ (Qabs (backoffMs config * power) <= 2 ^ 1023)%Q
  ∧ (Qabs (maxBackoffMs config) <= 2 ^ 1023)%Q.

(** ** Vocabulary of the further properties *)

(** The request that a call dispatches, at every attempt. *)
Definition dispatchOf (jwt href : string) (hdrs : gmap string string)
    : Request :=
  {| req_url := href; req_method := "POST"; req_headers := hdrs;
     req_body := jwt |}.

(** Whether the pass at attempt number [attempt] ends with a wait, given
    how its dispatch settles. *)
Definition waits (mergedOptions : MergedOptions) (attempt : Z) (s : Settled)
    : bool :=
  match s with
  | Rejects _ => shouldRetry None attempt (merged_retry mergedOptions)
  | Resolves reply =>
      negb (merged_validateStatus mergedOptions (reply_status reply))
      && shouldRetry (Some (reply_status reply)) attempt
                     (merged_retry mergedOptions)
  end.

(** An Outcome whose fields agree with each other and with the acceptance
    predicate: a success carries an accepted status code and neither an
    error text nor a retryable flag; a failure carries a status code that
    is not accepted, an error text and a retryable flag. *)
Definition coherent (mergedOptions : MergedOptions) (result : TransmitResult)
    : Prop :=
  match status result with
  | success =>
      merged_validateStatus mergedOptions (statusCode result) = true
      ∧ error result = None ∧ retryable result = None
  | failed =>
      merged_validateStatus mergedOptions (statusCode result) = false
      ∧ is_Some (error result) ∧ is_Some (retryable result)
  end.

(** What holds of [lastResponse] between two passes of the loop: its status
    was not accepted and its body was read. *)
Definition recorded (mergedOptions : MergedOptions) (w : World) : Prop :=
  ∀ r, lastResponse w = Some r →
       merged_validateStatus mergedOptions (Response.status r) = false
       ∧ bodyUsed w !! Response.ref r = Some true.

(** A 429 reply that carries a Retry-After header. *)
Definition tooManyRequests (retryAfter : string) : Reply :=
  {| reply_status := 429; reply_statusText := "Too Many Requests";
     reply_headers := [("retry-after", retryAfter)];
     reply_body := EmptyString |}.

(** ** Sample inputs *)

Definition sampleToken : string :=
  "eyJhbGciOiJSUzI1NiJ9.eyJpc3MiOiJodHRwczovL2V4YW1wbGUuY29tIn0.signature".
Definition sampleURL : string := "https://example.com/events".

(** Networks: replies 503, 502, then 200; reply 503, then replies 500; the
    same verdict every time; one reply, then refused connections. *)
Definition network503_502_200 : nat -> Settled :=
  fun n => match n with
           | O => Resolves (bare 503)
           | S O => Resolves (bare 502)
           | _ => Resolves (bare 200)
           end.
Definition always (verdict : Settled) : nat -> Settled := fun _ => verdict.
Definition onceThenRefused (first : Reply) : nat -> Settled :=
  fun n => match n with
           | O => Resolves first
           | _ => Rejects connectionRefused
           end.

(** A randomness source stuck at one half, and a clock stuck at zero. *)
Definition half : nat -> Q := fun _ => 1 # 2.
Definition epoch : nat -> Z := fun _ => 0.

(** The body [{"a":1}], and a JSON reply carrying a body. *)
Definition quoted (s : string) : string :=
  String Reference.dquote (s +:+ String Reference.dquote EmptyString).
Definition sampleJson : string := "{" +:+ quoted "a" +:+ ":1}".
Definition jsonReply (code : Z) (text : string) : Reply :=
  {| reply_status := code; reply_statusText := EmptyString;
     reply_headers := [("content-type", "application/json")];
     reply_body := text |}.

(** * Facts about the string primitives *)

Section Strings.
Implicit Types (s p : string) (c sep : ascii).

Lemma split_nonempty sep s : Js.split sep s ≠ [].
Proof.
  destruct s as [|c s]; simpl; [done|].
  destruct (decide (c = sep)); [done|].
  destruct (Js.split sep s); done.
Qed.

(** Joining the pieces gives the string back. *)
Lemma join_split sep s : Js.join sep (Js.split sep s) = s.
Proof.
  induction s as [|c s IH]; [done|].
  simpl. destruct (decide (c = sep)) as [->|Hc].
  - destruct (Js.split sep s) as [|p ps] eqn:E.
    + by destruct (split_nonempty sep s).
    + simpl in *. by rewrite IH.
  - destruct (Js.split sep s) as [|p ps] eqn:E.
    + by destruct (split_nonempty sep s).
    + destruct ps as [|p' ps]; simpl in *; by rewrite <- IH.
Qed.

(** A prefix free of the separator is the first piece. *)
Lemma split_prefix sep p s :
  sep ∉ Js.chars p →
  Js.split sep (p +:+ String sep s) = p :: Js.split sep s.
Proof.
  induction p as [|c p IH]; intros Hp; simpl.
  - by rewrite decide_True.
  - simpl in Hp. apply not_elem_of_cons in Hp as [Hc Hp].
    rewrite decide_False by done. by rewrite IH.
Qed.

Lemma split_whole sep p : sep ∉ Js.chars p → Js.split sep p = [p].
Proof.
  induction p as [|c p IH]; intros Hp; simpl; [done|].
  simpl in Hp. apply not_elem_of_cons in Hp as [Hc Hp].
  rewrite decide_False by done. by rewrite IH.
Qed.

Lemma base64urlChar_urlSafe c : base64urlChar c = true ↔ urlSafe c.
Proof.
  unfold base64urlChar, urlSafe, Js.between, Js.code; simpl.
  rewrite !orb_true_iff, !andb_true_iff, !N.leb_le, !bool_decide_eq_true.
  split.
  - intros [[[[?|?]|?]| -> ]| -> ]; simpl; lia.
  - intros [?|[?|[?|[Hc|Hc]]]]; [tauto|tauto|tauto|left; right|right].
    + rewrite <- (ascii_N_embedding c), Hc. done.
    + rewrite <- (ascii_N_embedding c), Hc. done.
Qed.

Lemma regex_segment p : base64urlRegex_test p = true ↔ segment p.
Proof.
  unfold base64urlRegex_test, segment.
  rewrite andb_true_iff, forallb_forall. split.
  - intros [Hne Hall]. split; [by destruct p|].
    intros c Hc. apply base64urlChar_urlSafe, Hall. by apply list_elem_of_In.
  - intros [Hne Hall]. split; [by destruct p|].
    intros c Hc. apply base64urlChar_urlSafe, Hall. by apply list_elem_of_In.
Qed.

Lemma segment_no_dot p : segment p → "."%char ∉ Js.chars p.
Proof.
  intros [_ Hall] Hin. specialize (Hall _ Hin).
  unfold urlSafe, Js.code in Hall. simpl in Hall. lia.
Qed.

Lemma startsWith_spec p s : Js.startsWith p s = true ↔ ∃ rest, s = p +:+ rest.
Proof.
  revert s. induction p as [|a p IH]; intros s; simpl.
  - split; [by exists s|done].
  - destruct s as [|b s].
    + split; [done|]. by intros [rest ?].
    + destruct (decide (a = b)) as [->|Hab].
      * rewrite IH. split; intros [rest Hr]; exists rest; [by rewrite Hr|].
        by injection Hr.
      * split; [done|]. intros [rest Hr]. by injection Hr as -> ?.
Qed.

(** [includes] is the substring test. *)
Lemma includes_spec needle s : Js.includes needle s = true ↔ occursIn needle s.
Proof.
  unfold occursIn. induction s as [|c s IH]; simpl.
  - rewrite orb_false_r, startsWith_spec. split.
    + intros [rest Hr]. by exists EmptyString, rest.
    + intros [before [after Hs]]. destruct before; [by exists after|done].
  - rewrite orb_true_iff, startsWith_spec, IH. split.
    + intros [[rest Hr]|[before [after Hs]]].
      * by exists EmptyString, rest.
      * exists (String c before), after. by rewrite Hs.
    + intros [before [after Hs]]. destruct before as [|b before].
      * left. by exists after.
      * right. simpl in Hs. injection Hs as -> Hs. by exists before, after.
Qed.

End Strings.

(** * Facts about numbers *)

Section Numbers.

Lemma gt_spec (a b : Q) : Num.gt a b = true ↔ (b < a)%Q.
Proof.
  unfold Num.gt. rewrite negb_true_iff, <- not_true_iff_false, Qle_bool_iff.
  split; [apply Qnot_le_lt | apply Qlt_not_le].
Qed.

Lemma gt_false (a b : Q) : Num.gt a b = false ↔ (a <= b)%Q.
Proof. unfold Num.gt. by rewrite negb_false_iff, Qle_bool_iff. Qed.

(** The jittered delay stays within a quarter of the clamped delay. *)
Lemma jitter_band (c r : Q) :
  (0 <= r)%Q → (r < 1)%Q →
  (Qabs (r * ((c + c * (1 # 4)) - (c - c * (1 # 4))) + (c - c * (1 # 4)) - c)
   <= (1 # 4) * Qabs c)%Q.
Proof.
  intros Hr0 Hr1. apply Qabs_Qle_condition.
  destruct (Qlt_le_dec c 0) as [Hc|Hc].
  - rewrite (Qabs_neg c) by lra. split; nra.
  - rewrite (Qabs_pos c) by lra. split; nra.
Qed.

End Numbers.

(** * Facts about the effects *)

Section Effects.
Context `{Runtime}.

Lemma calculateBackoff_idle attempt config hint w :
  ∃ v w', calculateBackoff attempt config hint w = (Normal v, w') ∧ idle w w'.
Proof.
  unfold calculateBackoff.
  destruct hint as [h|]; [destruct (Num.gt h 0)|]; eexists _, _;
    (split; [reflexivity|by repeat split]).
Qed.

Lemma parseRetryAfter_idle header w :
  ∃ v w', parseRetryAfter header w = (Normal v, w') ∧ idle w w'.
Proof.
  unfold parseRetryAfter.
  destruct header as [s|]; [|by eexists _, _].
  destruct (negb (Js.truthy s)); [by eexists _, _|].
  destruct (Num.parseInt s); [by eexists _, _|].
  destruct (Date_parse s); eexists _, _; (split; [reflexivity|by repeat split]).
Qed.

(** The first read of a body succeeds and marks the body as used. *)
Lemma parseResponseBody_fresh response parseJson w :
  bodyUsed w !! Response.ref response = Some false →
  parseResponseBody response parseJson w
  = (Normal (interpreted parseJson (Response.headers response)
                         (Response.payload response)),
     set_bodyUsed (fun l => <[Response.ref response := true]> l) w).
Proof.
  intros Hfresh. unfold parseResponseBody, bind, Response_text, interpreted.
  rewrite Hfresh.
  destruct (negb parseJson || negb (Js.truthy (Response.payload response)));
    [done|].
  destruct (Headers_get _ _) as [ct|]; [|done].
  destruct (Js.includes _ ct); [|done].
  by destruct (JSON_parse _).
Qed.

(** Any later read raises, and changes nothing. *)
Lemma parseResponseBody_used response parseJson w :
  bodyUsed w !! Response.ref response ≠ Some false →
  parseResponseBody response parseJson w
  = (Abrupt (ThrowError body_unusable), w).
Proof.
  intros Hused. unfold parseResponseBody, bind, Response_text.
  destruct (bodyUsed w !! Response.ref response) as [[]|]; done.
Qed.

End Effects.

(** * One pass through the loop body *)

Section Step.
Context `{Runtime}.
Variables (jwt href : string) (mergedOptions : MergedOptions)
          (hdrs : gmap string string).

Let pass := attemptOnce jwt href mergedOptions hdrs.

Lemma transportError_not_validation reason :
  instanceof_ValidationError
    (ThrowError (transportError mergedOptions reason)) = false.
Proof.
  destruct reason as [e|repr]; simpl; [|done].
  by destruct (bool_decide (name e = "AbortError")).
Qed.

Ltac run_backoff :=
  match goal with
  | |- context [calculateBackoff ?a ?c ?h ?w] =>
      let v := fresh "v" in let w' := fresh "w" in
      let E := fresh "E" in let I := fresh "I" in
      destruct (calculateBackoff_idle a c h w) as (v & w' & E & I);
      rewrite E; clear E
  end.

Ltac run_retryAfter :=
  match goal with
  | |- context [parseRetryAfter ?h ?w] =>
      let v := fresh "v" in let w' := fresh "w" in
      let E := fresh "E" in let I := fresh "I" in
      destruct (parseRetryAfter_idle h w) as (v & w' & E & I);
      rewrite E; clear E
  end.

Lemma attemptOnce_rejected attempt w reason :
  network w (length (requests w)) = Rejects reason →
  ∃ w', pass attempt w = (Normal Continue, w')
        ∧ afterReject mergedOptions reason w w'.
Proof.
  intros Hnet.
  unfold pass, attemptOnce, try_catch, bind, modify, throw, ret, fetch, delay.
  rewrite Hnet.
  destruct (shouldRetry None attempt (merged_retry mergedOptions));
    cbn -[calculateBackoff instanceof_ValidationError transportError].
  - run_backoff.
    eexists. split; [reflexivity|].
    destruct I as (?&Hrq&?&?&?). unfold afterReject; simpl.
    rewrite Hrq; simpl. rewrite length_app; simpl.
    repeat split; try done; [lia|congruence..].
  - rewrite transportError_not_validation.
    eexists. split; [reflexivity|].
    unfold afterReject; simpl. rewrite length_app; simpl.
    repeat split; try done; lia.
Qed.

Lemma attemptOnce_resolved attempt w reply :
  network w (length (requests w)) = Resolves reply →
  ∃ w', afterReply reply w w'
    ∧ pass attempt w =
        (Normal
           (if merged_validateStatus mergedOptions (reply_status reply)
            then Return (successOf mergedOptions reply)
            else if shouldRetry (Some (reply_status reply)) attempt
                                (merged_retry mergedOptions)
                 then Continue
                 else Return (failureOf mergedOptions reply)), w').
Proof.
  intros Hnet.
  unfold pass, attemptOnce, try_catch, bind, modify, throw, ret, fetch, delay.
  rewrite Hnet.
  rewrite parseResponseBody_fresh
    by (simpl; by rewrite lookup_app_r, Nat.sub_diag by done).
  cbn [Response.status Response.headers Response.payload Response.ref].
  set (w2 := set_bodyUsed _ _).
  assert (afterReply reply w w2) as Hw2.
  { unfold afterReply, w2; simpl. rewrite length_app; simpl.
    repeat split; try done; [lia|].
    rewrite insert_app_r_alt, Nat.sub_diag by done. done. }
  destruct (merged_validateStatus mergedOptions (reply_status reply)).
  { exists w2. by split. }
  destruct (shouldRetry (Some (reply_status reply)) attempt
                        (merged_retry mergedOptions));
    cbn -[calculateBackoff parseRetryAfter].
  2: { exists w2. by split. }
  run_retryAfter. run_backoff.
  eexists. split; [|reflexivity].
  destruct Hw2 as (?&?&?&?&?), I as (?&?&?&?&?), I0 as (?&?&?&?&?).
  unfold afterReply; simpl. repeat split; congruence.
Qed.

End Step.

(** * The attempt loop *)

Lemma replyOf_responseOf w reply : replyOf (responseOf w reply) = reply.
Proof. by destruct reply. Qed.

Lemma upcoming_shift w w' i :
  network w' = network w →
  length (requests w') = S (length (requests w)) →
  upcoming w' i = upcoming w (S i).
Proof.
  intros Hnet Hlen. unfold upcoming. rewrite Hnet, Hlen. f_equal. lia.
Qed.

Lemma upcoming_0 w : upcoming w 0 = network w (length (requests w)).
Proof. unfold upcoming. f_equal. lia. Qed.


Section Loop.
Context `{Runtime}.
Variables (jwt href : string) (mergedOptions : MergedOptions)
          (hdrs : gmap string string).

Let pass := attemptOnce jwt href mergedOptions hdrs.

Lemma for_each_continue attempt rest w w' :
  pass attempt w = (Normal Continue, w') →
  for_each (attempt :: rest) pass w = for_each rest pass w'.
Proof. intros E. simpl. unfold bind. by rewrite E. Qed.

Lemma for_each_return attempt rest w w' result :
  pass attempt w = (Normal (Return result), w') →
  for_each (attempt :: rest) pass w = (Normal (Some result), w').
Proof. intros E. simpl. unfold bind. by rewrite E. Qed.

(** A pass that [continues] hands over to the next one. *)
Lemma continues_step attempt w :
  continues mergedOptions attempt (upcoming w 0) →
  ∃ w', pass attempt w = (Normal Continue, w')
    ∧ match upcoming w 0 with
      | Rejects reason => afterReject mergedOptions reason w w'
      | Resolves reply => afterReply reply w w'
      end.
Proof.
  rewrite upcoming_0. intros Hc.
  destruct (network w (length (requests w))) as [reason|reply] eqn:E.
  - by apply attemptOnce_rejected.
  - destruct Hc as [Hv Hr].
    destruct (attemptOnce_resolved jwt href mergedOptions hdrs attempt w reply E)
      as (w' & Hw' & Hbody).
    rewrite Hv, Hr in Hbody. by exists w'.
Qed.

(** [k] passes that all continue: where the loop stands afterwards. *)
Lemma loop_continues (k : nat) : ∀ (a len : Z) (w : World),
  Z.of_nat k <= len →
  (∀ i, (i < k)%nat →
        continues mergedOptions (a + Z.of_nat i) (upcoming w i)) →
  ∃ w1,
    for_each (seqZ a len) pass w
    = for_each (seqZ (a + Z.of_nat k) (len - Z.of_nat k)) pass w1
    ∧ network w1 = network w
    ∧ length (requests w1) = (length (requests w) + k)%nat
    ∧ (k = 0%nat → w1 = w)
    ∧ (∀ reason, (0 < k)%nat → upcoming w (k - 1) = Rejects reason →
         lastError w1 = Some (transportError mergedOptions reason))
    ∧ (∀ reply, (0 < k)%nat → upcoming w (k - 1) = Resolves reply →
         ∃ r, lastResponse w1 = Some r ∧ replyOf r = reply
              ∧ bodyUsed w1 !! Response.ref r = Some true)
    ∧ ((∀ i, (i < k)%nat → rejected (upcoming w i)) →
         lastResponse w1 = lastResponse w ∧ bodyUsed w1 = bodyUsed w).
Proof.
  induction k as [|k IH]; intros a len w Hlen Hcont.
  - exists w. rewrite Z.add_0_r, Z.sub_0_r.
    repeat split; try done; intros; lia.
  - destruct (continues_step a w) as (w' & Hstep & Hafter).
    { specialize (Hcont 0%nat ltac:(lia)). by rewrite Z.add_0_r in Hcont. }
    assert (network w' = network w
            ∧ length (requests w') = S (length (requests w))) as [Hnet Hrq].
    { destruct (upcoming w 0); destruct Hafter as (?&?&_); done. }
    destruct (IH (Z.succ a) (Z.pred len) w') as
      (w1 & Hloop & Hnet1 & Hrq1 & Hzero & Herr & Hresp & Hrej).
    { lia. }
    { intros i Hi. rewrite (upcoming_shift w w') by done.
      replace (Z.succ a + Z.of_nat i) with (a + Z.of_nat (S i)) by lia.
      apply Hcont. lia. }
    exists w1.
    rewrite seqZ_cons by lia.
    rewrite (for_each_continue _ _ _ _ Hstep), Hloop.
    replace (Z.succ a + Z.of_nat k) with (a + Z.of_nat (S k)) by lia.
    replace (Z.pred len - Z.of_nat k) with (len - Z.of_nat (S k)) by lia.
    split; [done|]. split; [congruence|]. split; [lia|]. split; [lia|].
    replace (S k - 1)%nat with k by lia.
    split; [|split].
    + intros reason _ Hlast. destruct k as [|k].
      * rewrite (Hzero eq_refl). rewrite Hlast in Hafter.
        by destruct Hafter as (_&_&_&_&?).
      * apply Herr; [lia|]. rewrite (upcoming_shift w w') by done.
        by replace (S (S k - 1)) with (S k) by lia.
    + intros reply _ Hlast. destruct k as [|k].
      * rewrite (Hzero eq_refl). rewrite Hlast in Hafter.
        destruct Hafter as (_&_&Hused&Hlr&_).
        exists (responseOf w reply). split; [done|].
        split; [apply replyOf_responseOf|].
        rewrite Hused. simpl. by rewrite lookup_app_r, Nat.sub_diag by done.
      * apply Hresp; [lia|]. rewrite (upcoming_shift w w') by done.
        by replace (S (S k - 1)) with (S k) by lia.
    + intros Hall.
      destruct (Hall 0%nat ltac:(lia)) as [reason Hr0].
      rewrite Hr0 in Hafter. destruct Hafter as (_&_&Hused&Hlr&_).
      destruct Hrej as [Hlr1 Hused1].
      { intros i Hi. rewrite (upcoming_shift w w') by done. apply Hall. lia. }
      split; congruence.
Qed.


(** After the loop, with a response on record: a failed Outcome. *)
Lemma afterLoop_recorded w r :
  lastResponse w = Some r →
  ∃ b w',
    afterLoop mergedOptions w
    = (Normal {| status := failed;
                 statusCode := Response.status r;
                 body := b;
                 headers := parseResponseHeaders (Response.headers r);
                 error := Some match lastError w with
                               | Some e => if Js.truthy (message e)
                                           then message e else httpError r
                               | None => httpError r
                               end;
                 retryable := Some true |}, w')
    ∧ (bodyUsed w !! Response.ref r ≠ Some false →
         b = BodyText EmptyString ∧ w' = w)
    ∧ (bodyUsed w !! Response.ref r = Some false →
         b = interpreted (merged_parseResponse mergedOptions)
                         (Response.headers r) (Response.payload r)).
Proof.
  intros Hlr. unfold afterLoop, bind, gets, try_catch, ret. rewrite Hlr.
  destruct (decide (bodyUsed w !! Response.ref r = Some false)) as [Hf|Hu].
  - rewrite parseResponseBody_fresh by done. simpl.
    eexists _, _. split; [reflexivity|]. split; [done|done].
  - rewrite parseResponseBody_used by done.
    eexists _, _. split; [reflexivity|]. split; [done|done].
Qed.

(** After the loop, with no response on record: the last failure is
    thrown. *)
Lemma afterLoop_empty w :
  lastResponse w = None →
  afterLoop mergedOptions w
  = (Abrupt (ThrowError
               (default (new_TransmissionError
                           "Failed to transmit SET after all retry attempts")
                        (lastError w))), w).
Proof.
  intros Hlr. unfold afterLoop, bind, gets, throw. by rewrite Hlr.
Qed.

End Loop.

(** * The whole call *)

Section Call.
Context `{Runtime}.
Variables (jwt url href : string) (options : TransmitOptions).
Hypothesis token_ok : isValidSET jwt = true.
Hypothesis url_ok : URL_parse url = Some href.

Let mo := mergeOptions options.
Let cap := maxAttempts (merged_retry mo).
Let pass := attemptOnce jwt href mo (requestHeaders mo).

Lemma transmitSET_enter w :
  transmitSET jwt url options w
  = match for_each (seqZ 1 cap) pass (entered w) with
    | (Normal (Some result), w') => (Normal result, w')
    | (Normal None, w') => afterLoop mo w'
    | (Abrupt t, w') => (Abrupt t, w')
    end.
Proof.
  unfold transmitSET. rewrite token_ok, url_ok. cbn [negb].
  unfold bind, modify, ret, entered. subst mo cap pass. cbv zeta.
  destruct (for_each _ _ _) as [[[result|]|t] w']; done.
Qed.

(** The call reaches dispatch number [k] and gets an answer that ends it
    there. *)
Lemma loop_answer (k : nat) reply w0 :
  Z.of_nat k < cap →
  (∀ i, (i < k)%nat → continues mo (Z.of_nat i + 1) (upcoming w0 i)) →
  upcoming w0 k = Resolves reply →
  ¬ continues mo (Z.of_nat k + 1) (Resolves reply) →
  ∃ w',
    for_each (seqZ 1 cap) pass w0
    = (Normal (Some (if merged_validateStatus mo (reply_status reply)
                     then successOf mo reply else failureOf mo reply)), w')
    ∧ length (requests w') = (length (requests w0) + S k)%nat.
Proof.
  intros Hk Hcont Hres Hend.
  destruct (loop_continues jwt href mo (requestHeaders mo) k 1 cap w0)
    as (w1 & Hloop & Hnet & Hrq & _).
  { lia. }
  { intros i Hi. rewrite Z.add_comm. by apply Hcont. }
  fold pass in Hloop. rewrite Hloop. rewrite seqZ_cons by lia.
  assert (network w1 (length (requests w1)) = Resolves reply) as Hnow.
  { rewrite Hnet, Hrq. exact Hres. }
  destruct (attemptOnce_resolved jwt href mo (requestHeaders mo)
              (1 + Z.of_nat k) w1 reply Hnow) as (w' & Hafter & Hstep).
  fold pass in Hstep. exists w'.
  destruct Hafter as (_ & Hrq' & _). split; [|lia].
  unfold continues in Hend.
  replace (Z.of_nat k + 1) with (1 + Z.of_nat k) in Hend by lia.
  destruct (merged_validateStatus mo (reply_status reply)).
  { by rewrite (for_each_return _ _ _ _ _ _ _ _ _ Hstep). }
  destruct (shouldRetry _ _ _).
  { exfalso. by apply Hend. }
  by rewrite (for_each_return _ _ _ _ _ _ _ _ _ Hstep).
Qed.

(** Every pass continues: the loop runs to its end. *)
Lemma loop_exhausted w0 :
  let n := Z.to_nat cap in
  (∀ i, (i < n)%nat → continues mo (Z.of_nat i + 1) (upcoming w0 i)) →
  ∃ w1,
    for_each (seqZ 1 cap) pass w0 = (Normal None, w1)
    ∧ length (requests w1) = (length (requests w0) + n)%nat
    ∧ (n = 0%nat → w1 = w0)
    ∧ (∀ reason, (0 < n)%nat → upcoming w0 (n - 1) = Rejects reason →
         lastError w1 = Some (transportError mo reason))
    ∧ (∀ reply, (0 < n)%nat → upcoming w0 (n - 1) = Resolves reply →
         ∃ r, lastResponse w1 = Some r ∧ replyOf r = reply
              ∧ bodyUsed w1 !! Response.ref r = Some true)
    ∧ ((∀ i, (i < n)%nat → rejected (upcoming w0 i)) →
         lastResponse w1 = lastResponse w0 ∧ bodyUsed w1 = bodyUsed w0).
Proof.
  intros n Hcont.
  destruct (decide (cap <= 0)) as [Hle|Hgt].
  - exists w0. rewrite seqZ_nil by done.
    assert (n = 0%nat) as Hn by (subst n; lia).
    repeat split; try done; intros; lia.
  - destruct (loop_continues jwt href mo (requestHeaders mo) n 1 cap w0)
      as (w1 & Hloop & Hnet & Hrq & Hzero & Herr & Hresp & Hrej).
    { subst n. lia. }
    { intros i Hi. rewrite Z.add_comm. by apply Hcont. }
    exists w1. fold pass in Hloop. rewrite Hloop.
    rewrite seqZ_nil by (subst n; lia).
    repeat split; try done.
    + by apply Hrej.
    + by apply Hrej.
Qed.

End Call.

Lemma transportError_message_truthy mergedOptions reason :
  Js.truthy (message (transportError mergedOptions reason)) = true.
Proof.
  destruct reason as [e|repr]; simpl; [|done].
  by destruct (bool_decide (name e = "AbortError")).
Qed.


#[global] Instance continues_dec `{Runtime} mo attempt s :
  Decision (continues mo attempt s).
Proof. destruct s; simpl; apply _. Defined.

(** Among the next [n] dispatches either every pass continues, or there is
    a first pass that does not. *)
Lemma first_stop `{Runtime} mo (w : World) (n : nat) :
  (∀ i, (i < n)%nat → continues mo (Z.of_nat i + 1) (upcoming w i))
  ∨ ∃ k, (k < n)%nat
         ∧ (∀ i, (i < k)%nat → continues mo (Z.of_nat i + 1) (upcoming w i))
         ∧ ¬ continues mo (Z.of_nat k + 1) (upcoming w k).
Proof.
  induction n as [|n IH].
  - left. intros i Hi. lia.
  - destruct IH as [Hall|(k & Hk & Hbefore & Hstop)].
    + destruct (decide (continues mo (Z.of_nat n + 1) (upcoming w n)))
        as [Hn|Hn].
      * left. intros i Hi. destruct (decide (i = n)) as [->|]; [done|].
        apply Hall. lia.
      * right. exists n. repeat split; [lia|done|done].
    + right. exists k. repeat split; [lia|done|done].
Qed.

(** * The claims about the transmission engine *)

Lemma dispatched_entered w w' (n : nat) :
  length (requests w') = (length (requests (entered w)) + n)%nat →
  dispatched w w' = n.
Proof. unfold dispatched, entered; simpl. lia. Qed.

(** C1.  With a valid token and URL, a dispatched response whose status the
    acceptance predicate accepts (by default, a status below 400), every
    earlier attempt having been retried, ends the call at once with a
    success Outcome carrying that response's status code, parsed body and
    normalised headers, and nothing more is dispatched.  With maxAttempts 3
    and replies 503, 502, 200 there are exactly three dispatches and the
    Outcome is success with status code 200. *)
Theorem accepted_response_ends_call `{Runtime}
    (jwt url href : string) (w : World) :
  isValidSET jwt = true → URL_parse url = Some href →
  (∀ (options : TransmitOptions) (k : nat) (reply : Reply),
     let mo := mergeOptions options in
     Z.of_nat k < maxAttempts (merged_retry mo) →
     (∀ i, (i < k)%nat → continues mo (Z.of_nat i + 1) (upcoming w i)) →
     upcoming w k = Resolves reply →
     merged_validateStatus mo (reply_status reply) = true →
     ∃ result w',
       transmitSET jwt url options w = (Normal result, w')
       ∧ status result = success
       ∧ statusCode result = reply_status reply
       ∧ body result = interpreted (merged_parseResponse mo)
                                   (reply_headers reply) (reply_body reply)
       ∧ headers result = parseResponseHeaders (reply_headers reply)
       ∧ dispatched w w' = S k)
  ∧ (∀ options code, validateStatus options = None →
       (merged_validateStatus (mergeOptions options) code = true ↔ code < 400))
  ∧ (∀ r1 r2 r3,
       upcoming w 0 = Resolves r1 → upcoming w 1 = Resolves r2 →
       upcoming w 2 = Resolves r3 →
       reply_status r1 = 503 → reply_status r2 = 502 → reply_status r3 = 200 →
       ∃ result w',
         transmitSET jwt url (withMaxAttempts 3) w = (Normal result, w')
         ∧ status result = success ∧ statusCode result = 200
         ∧ dispatched w w' = 3%nat).
Proof.
  intros Htoken Hurl.
  assert (∀ (options : TransmitOptions) (k : nat) (reply : Reply),
     let mo := mergeOptions options in
     Z.of_nat k < maxAttempts (merged_retry mo) →
     (∀ i, (i < k)%nat → continues mo (Z.of_nat i + 1) (upcoming w i)) →
     upcoming w k = Resolves reply →
     merged_validateStatus mo (reply_status reply) = true →
     ∃ w', transmitSET jwt url options w = (Normal (successOf mo reply), w')
           ∧ dispatched w w' = S k) as Hgeneral.
  { intros options k reply mo Hk Hcont Hres Hacc.
    destruct (loop_answer jwt href options k reply (entered w) Hk Hcont Hres)
      as (w' & Hloop & Hrq).
    { unfold continues. fold mo. rewrite Hacc. by intros [? _]. }
    exists w'. rewrite (transmitSET_enter jwt url href options Htoken Hurl).
    rewrite Hloop. fold mo. rewrite Hacc. split; [done|].
    by apply dispatched_entered. }
  split; [|split].
  - intros options k reply mo Hk Hcont Hres Hacc.
    destruct (Hgeneral options k reply Hk Hcont Hres Hacc) as (w' & Hrun & Hn).
    by exists (successOf mo reply), w'.
  - intros options code Hnone. unfold mergeOptions; simpl. rewrite Hnone; simpl.
    unfold DEFAULT_validateStatus. apply Z.ltb_lt.
  - intros r1 r2 r3 H1 H2 H3 Hs1 Hs2 Hs3.
    destruct (Hgeneral (withMaxAttempts 3) 2%nat r3) as (w' & Hrun & Hn).
    + done.
    + intros i Hi. destruct i as [|[|i]]; [rewrite H1|rewrite H2|lia];
        simpl; [rewrite Hs1|rewrite Hs2]; done.
    + done.
    + simpl. by rewrite Hs3.
    + eexists _, w'. split; [exact Hrun|]. simpl. by rewrite Hs3.
Qed.

Lemma accepted_response_ends_call_witness :
  ∃ result w',
    @transmitSET Reference.runtime sampleToken sampleURL (withMaxAttempts 3)
      (initial network503_502_200 half epoch) = (Normal result, w')
    ∧ status result = success ∧ statusCode result = 200
    ∧ dispatched (initial network503_502_200 half epoch) w' = 3%nat.
Proof.
  destruct (@accepted_response_ends_call Reference.runtime sampleToken sampleURL
              sampleURL (initial network503_502_200 half epoch))
    as (_ & _ & Hscenario); [reflexivity|reflexivity|].
  apply (Hscenario (bare 503) (bare 502) (bare 200)); reflexivity.
Defined.

(** C2.  When a response is obtained whose status is not accepted and the
    retry policy permits no further attempt, the call ends inside the loop
    with a failed Outcome carrying that response's status code, body and
    normalised headers, the error text [HTTP <status>: <statusText>], and a
    retryable flag that says whether the status is one of the retryable
    statuses, whatever made the policy refuse.  Conversely, every failed
    Outcome that the loop returns is of this kind.  A single 401 reply
    gives one dispatch and a failed Outcome with retryable false. *)
Theorem refused_response_ends_call `{Runtime}
    (jwt url href : string) (w : World) :
  isValidSET jwt = true → URL_parse url = Some href →
  (∀ (options : TransmitOptions) (k : nat) (reply : Reply),
     let mo := mergeOptions options in
     Z.of_nat k < maxAttempts (merged_retry mo) →
     (∀ i, (i < k)%nat → continues mo (Z.of_nat i + 1) (upcoming w i)) →
     upcoming w k = Resolves reply →
     merged_validateStatus mo (reply_status reply) = false →
     shouldRetry (Some (reply_status reply)) (Z.of_nat k + 1) (merged_retry mo)
     = false →
     ∃ result w',
       transmitSET jwt url options w = (Normal result, w')
       ∧ status result = failed
       ∧ statusCode result = reply_status reply
       ∧ body result = interpreted (merged_parseResponse mo)
                                   (reply_headers reply) (reply_body reply)
       ∧ headers result = parseResponseHeaders (reply_headers reply)
       ∧ error result = Some ("HTTP " +:+ pretty (reply_status reply) +:+ ": "
                              +:+ reply_statusText reply)
       ∧ retryable result
         = Some (bool_decide (reply_status reply
                              ∈ retryableStatuses (merged_retry mo)))
       ∧ dispatched w w' = S k)
  ∧ (∀ (options : TransmitOptions) result w',
       let mo := mergeOptions options in
       for_each (seqZ 1 (maxAttempts (merged_retry mo)))
                (attemptOnce jwt href mo (requestHeaders mo)) (entered w)
       = (Normal (Some result), w') →
       status result = failed →
       ∃ (k : nat) (reply : Reply),
         upcoming w k = Resolves reply
         ∧ merged_validateStatus mo (reply_status reply) = false
         ∧ shouldRetry (Some (reply_status reply)) (Z.of_nat k + 1)
                       (merged_retry mo) = false
         ∧ result = failureOf mo reply
         ∧ dispatched w w' = S k)
  ∧ (∀ reply,
       upcoming w 0 = Resolves reply → reply_status reply = 401 →
       ∃ result w',
         transmitSET jwt url no_options w = (Normal result, w')
         ∧ status result = failed ∧ statusCode result = 401
         ∧ retryable result = Some false
         ∧ dispatched w w' = 1%nat).
Proof.
  intros Htoken Hurl.
  assert (∀ (options : TransmitOptions) (k : nat) (reply : Reply),
     let mo := mergeOptions options in
     Z.of_nat k < maxAttempts (merged_retry mo) →
     (∀ i, (i < k)%nat → continues mo (Z.of_nat i + 1) (upcoming w i)) →
     upcoming w k = Resolves reply →
     merged_validateStatus mo (reply_status reply) = false →
     shouldRetry (Some (reply_status reply)) (Z.of_nat k + 1) (merged_retry mo)
     = false →
     ∃ w', transmitSET jwt url options w = (Normal (failureOf mo reply), w')
           ∧ dispatched w w' = S k) as Hgeneral.
  { intros options k reply mo Hk Hcont Hres Hrefused Hpolicy.
    destruct (loop_answer jwt href options k reply (entered w) Hk Hcont Hres)
      as (w' & Hloop & Hrq).
    { unfold continues. fold mo. rewrite Hpolicy. by intros [_ ?]. }
    exists w'. rewrite (transmitSET_enter jwt url href options Htoken Hurl).
    rewrite Hloop. fold mo. rewrite Hrefused. split; [done|].
    by apply dispatched_entered. }
  split; [|split].
  - intros options k reply mo Hk Hcont Hres Hrefused Hpolicy.
    destruct (Hgeneral options k reply Hk Hcont Hres Hrefused Hpolicy)
      as (w' & Hrun & Hn).
    by exists (failureOf mo reply), w'.
  - intros options result w' mo Hloop Hfailed.
    destruct (first_stop mo (entered w)
                (Z.to_nat (maxAttempts (merged_retry mo))))
      as [Hall|(k & Hk & Hbefore & Hstop)].
    { destruct (loop_exhausted jwt href options (entered w) Hall)
        as (w1 & Hnone & _).
      fold mo in Hnone. congruence. }
    change (upcoming (entered w) k) with (upcoming w k) in Hstop.
    destruct (upcoming w k) as [reason|reply] eqn:Hres; [by destruct Hstop|].
    destruct (loop_answer jwt href options k reply (entered w))
      as (w2 & Hanswer & Hrq); try done.
    { fold mo. lia. }
    fold mo in Hanswer. unfold continues in Hstop.
    destruct (merged_validateStatus mo (reply_status reply)) eqn:Hv.
    { rewrite Hanswer in Hloop. injection Hloop as <- <-. done. }
    destruct (shouldRetry _ _ _) eqn:Hs; [exfalso; by apply Hstop|].
    rewrite Hanswer in Hloop. injection Hloop as <- <-.
    exists k, reply. repeat split; try done. by apply dispatched_entered.
  - intros reply Hres Hcode.
    destruct (Hgeneral no_options 0%nat reply) as (w' & Hrun & Hn).
    + done.
    + intros i Hi. lia.
    + done.
    + simpl. by rewrite Hcode.
    + simpl. by rewrite Hcode.
    + eexists _, w'. split; [exact Hrun|]. simpl. by rewrite Hcode.
Qed.

Lemma refused_response_ends_call_witness :
  ∃ result w',
    @transmitSET Reference.runtime sampleToken sampleURL no_options
      (initial (always (Resolves (bare 401))) half epoch) = (Normal result, w')
    ∧ status result = failed ∧ statusCode result = 401
    ∧ retryable result = Some false
    ∧ dispatched (initial (always (Resolves (bare 401))) half epoch) w' = 1%nat.
Proof.
  destruct (@refused_response_ends_call Reference.runtime sampleToken sampleURL
              sampleURL (initial (always (Resolves (bare 401))) half epoch))
    as (_ & _ & Hscenario); [reflexivity|reflexivity|].
  apply (Hscenario (bare 401)); reflexivity.
Defined.




Lemma upcoming_after w w1 (k i : nat) :
  network w1 = network w →
  length (requests w1) = (length (requests w) + k)%nat →
  upcoming w1 i = upcoming w (k + i).
Proof.
  intros Hnet Hrq. unfold upcoming. rewrite Hnet, Hrq. f_equal. lia.
Qed.

Lemma rejected_continues `{Runtime} mo attempt s :
  rejected s → continues mo attempt s.
Proof. by intros [reason ->]. Qed.



(** C5.  When the last attempt fails at the transport level but an earlier
    attempt had obtained a response that was retried, the call does not
    raise: it returns a failed Outcome whose status code and headers are
    those of that earlier response, whose error text is the message of the
    last transport failure, whose retryable flag is true, and whose body is
    the empty string, because the body of that response was already read.
    The code after the loop sets the flag to true for whatever status is
    on record. *)
Theorem transport_failure_after_response `{Runtime}
    (jwt url href : string) (options : TransmitOptions) (w : World)
    (j : nat) (reply : Reply) (reason : Thrown) :
  let mo := mergeOptions options in
  let n := Z.to_nat (maxAttempts (merged_retry mo)) in
  isValidSET jwt = true → URL_parse url = Some href →
  (S j < n)%nat →
  (∀ i, (i < j)%nat → continues mo (Z.of_nat i + 1) (upcoming w i)) →
  upcoming w j = Resolves reply →
  continues mo (Z.of_nat j + 1) (Resolves reply) →
  (∀ i, (j < i < n)%nat → rejected (upcoming w i)) →
  upcoming w (n - 1) = Rejects reason →
  (∃ result w',
     transmitSET jwt url options w = (Normal result, w')
     ∧ status result = failed
     ∧ statusCode result = reply_status reply
     ∧ headers result = parseResponseHeaders (reply_headers reply)
     ∧ error result = Some (message (transportError mo reason))
     ∧ retryable result = Some true
     ∧ body result = BodyText EmptyString
     ∧ dispatched w w' = n)
  ∧ (∀ (w0 : World) (r : Response.t),
       lastResponse w0 = Some r →
       bodyUsed w0 !! Response.ref r = Some true →
       ∃ result,
         afterLoop mo w0 = (Normal result, w0)
         ∧ statusCode result = Response.status r
         ∧ retryable result = Some true
         ∧ body result = BodyText EmptyString).
Proof.
  intros mo n Htoken Hurl Hj Hbefore Hres Hretried Hafter Hlast.
  split.
  - rewrite (transmitSET_enter jwt url href options Htoken Hurl). fold mo.
    destruct (loop_continues jwt href mo (requestHeaders mo) (S j) 1
                (maxAttempts (merged_retry mo)) (entered w))
      as (w1 & Hloop1 & Hnet1 & Hrq1 & _ & _ & Hresp1 & _).
    { subst n. lia. }
    { intros i Hi. rewrite Z.add_comm. destruct (decide (i = j)) as [->|].
      - change (upcoming (entered w) j) with (upcoming w j). by rewrite Hres.
      - apply Hbefore. lia. }
    destruct (Hresp1 reply) as (r & Hlr1 & Hr & Hused1); [lia| |].
    { by replace (S j - 1)%nat with j by lia. }
    destruct (loop_continues jwt href mo (requestHeaders mo) (n - S j)
                (1 + Z.of_nat (S j))
                (maxAttempts (merged_retry mo) - Z.of_nat (S j)) w1)
      as (w2 & Hloop2 & Hnet2 & Hrq2 & _ & Herr2 & _ & Hrej2).
    { subst n. lia. }
    { intros i Hi. apply rejected_continues.
      rewrite (upcoming_after (entered w) w1 (S j)) by done.
      apply Hafter. lia. }
    destruct Hrej2 as [Hlr2 Hused2].
    { intros i Hi. rewrite (upcoming_after (entered w) w1 (S j)) by done.
      apply Hafter. lia. }
    rewrite Hloop1, Hloop2. rewrite seqZ_nil by (subst n; lia). simpl.
    assert (lastError w2 = Some (transportError mo reason)) as Herr.
    { apply Herr2; [lia|].
      rewrite (upcoming_after (entered w) w1 (S j)) by done.
      replace (S j + (n - S j - 1))%nat with (n - 1)%nat by lia. exact Hlast. }
    destruct (afterLoop_recorded mo w2 r) as (b & w3 & Hrun & Hbody & _).
    { congruence. }
    destruct Hbody as [-> ->]; [rewrite Hused2, Hused1; done|].
    rewrite Hrun, Herr, transportError_message_truthy.
    eexists _, w2. split; [reflexivity|]. simpl.
    rewrite <- Hr. repeat split; try done.
    apply dispatched_entered. rewrite Hrq2, Hrq1. lia.
  - intros w0 r Hlr Hused.
    destruct (afterLoop_recorded mo w0 r Hlr) as (b & w' & Hrun & Hbody & _).
    destruct Hbody as [-> ->]; [by rewrite Hused|].
    eexists. by split; [exact Hrun|].
Qed.

Lemma transport_failure_after_response_witness :
  ∃ result w',
    @transmitSET Reference.runtime sampleToken sampleURL (withMaxAttempts 2)
      (initial (onceThenRefused (jsonReply 503 sampleJson)) half epoch)
    = (Normal result, w')
    ∧ status result = failed
    ∧ statusCode result = 503
    ∧ error result = Some "Network error: fetch failed"
    ∧ retryable result = Some true
    ∧ body result = BodyText EmptyString.
Proof.
  destruct (@transport_failure_after_response Reference.runtime sampleToken
              sampleURL sampleURL (withMaxAttempts 2)
              (initial (onceThenRefused (jsonReply 503 sampleJson)) half epoch)
              0%nat (jsonReply 503 sampleJson) connectionRefused)
    as [(result & w' & Hrun & Hs & Hc & Hh & He & Hr & Hb & Hn) _].
  - reflexivity.
  - reflexivity.
  - simpl. lia.
  - intros i Hi. lia.
  - reflexivity.
  - split; reflexivity.
  - intros i Hi. simpl in Hi. replace i with 1%nat by lia.
    by exists connectionRefused.
  - reflexivity.
  - exists result, w'. repeat split; assumption.
Defined.

(** * The claims about the retry policy, the backoff and the interpreter *)

(** C6.  [shouldRetry] is false once the attempt number has reached
    maxAttempts; below it, an absent status (a transport failure) is
    retried, and a present status is retried exactly when it is one of the
    retryable statuses.  With maxAttempts 3 and statuses 429, 502, 503,
    504: true for 503 at attempts 1 and 2, false from attempt 3 on, true
    for an absent status at attempts 1 and 2, false for 404 at every
    attempt. *)
Theorem shouldRetry_policy (status : option Z) (attempt : Z)
    (config : RetryConfig) :
  (maxAttempts config <= attempt → shouldRetry status attempt config = false)
  ∧ (attempt < maxAttempts config → shouldRetry None attempt config = true)
  ∧ (attempt < maxAttempts config →
     ∀ code, shouldRetry (Some code) attempt config = true
             ↔ code ∈ retryableStatuses config)
  ∧ (shouldRetry (Some 503) 1 DEFAULT_RETRY_CONFIG = true
     ∧ shouldRetry (Some 503) 2 DEFAULT_RETRY_CONFIG = true
     ∧ (∀ a, 3 <= a → shouldRetry (Some 503) a DEFAULT_RETRY_CONFIG = false)
     ∧ shouldRetry None 1 DEFAULT_RETRY_CONFIG = true
     ∧ shouldRetry None 2 DEFAULT_RETRY_CONFIG = true
     ∧ (∀ a, shouldRetry (Some 404) a DEFAULT_RETRY_CONFIG = false)).
Proof.
  unfold shouldRetry, isRetryableStatus. repeat split.
  - intros Hcap. by rewrite (proj2 (Z.geb_le _ _)).
  - intros Hcap. destruct (Z.geb_spec attempt (maxAttempts config)); [lia|done].
  - destruct (Z.geb_spec attempt (maxAttempts config)); [lia|].
    by intros ?%bool_decide_eq_true.
  - destruct (Z.geb_spec attempt (maxAttempts config)); [lia|].
    intros. by apply bool_decide_eq_true.
  - intros a Ha. simpl. by rewrite (proj2 (Z.geb_le _ _)).
  - intros a. simpl. by destruct (a >=? 3).
Qed.

Lemma shouldRetry_policy_witness :
  shouldRetry (Some 429) 2 DEFAULT_RETRY_CONFIG = true
  ∧ shouldRetry (Some 429) 3 DEFAULT_RETRY_CONFIG = false
  ∧ shouldRetry None 2 DEFAULT_RETRY_CONFIG = true.
Proof.
  destruct (shouldRetry_policy (Some 429) 2 DEFAULT_RETRY_CONFIG)
    as (_ & Habsent & Hmember & _).
  destruct (shouldRetry_policy (Some 429) 3 DEFAULT_RETRY_CONFIG)
    as (Hcap & _).
  split; [|split].
  - apply (proj2 (Hmember eq_refl 429)). simpl. constructor.
  - apply Hcap. simpl. lia.
  - apply Habsent. reflexivity.
Defined.

(** [calculateBackoff] while its numbers stay within the range of doubles.
    With a positive hint it returns exactly the smaller of the hint and
    maxBackoffMs, and draws no random number.  Otherwise, for every draw in
    [0, 1), it returns the floor of a value within a quarter of the clamped
    exponential delay: between 0.75 and 1.25 times that delay when it is
    not negative; and when backoffMs is zero, in a configuration that meets
    the invariant (maxBackoffMs is not below backoffMs), the result is
    exactly 0.  Hints 5000 and 20000 under a maximum of 10000 give 5000 and
    10000.  (Beyond that range the code's power overflows to an infinity,
    and zero times an infinity is NaN: see [withinDoubles].) *)
Theorem calculateBackoff_delay (attempt : Z) (config : RetryConfig)
    (hint : option Q) (w : World) :
  (∀ h, hint = Some h → (0 < h)%Q →
     calculateBackoff attempt config hint w
     = (Normal (Qmin h (maxBackoffMs config)), w))
  ∧ (hint = None ∨ (∃ h, hint = Some h ∧ (h <= 0)%Q) →
     withinDoubles attempt config →
     (0 <= entropy w (draws w))%Q → (entropy w (draws w) < 1)%Q →
     ∃ v, calculateBackoff attempt config hint w
          = (Normal (inject_Z (Qfloor v)), set_draws S w)
          ∧ (Qabs (v - clampedDelay attempt config)
             <= (1 # 4) * Qabs (clampedDelay attempt config))%Q
          ∧ ((0 <= clampedDelay attempt config)%Q →
             ((3 # 4) * clampedDelay attempt config <= v)%Q
             ∧ (v <= (5 # 4) * clampedDelay attempt config)%Q))
  ∧ (hint = None ∨ (∃ h, hint = Some h ∧ (h <= 0)%Q) →
     withinDoubles attempt config →
     (backoffMs config == 0)%Q → wellFormed config →
     calculateBackoff attempt config hint w = (Normal 0%Q, set_draws S w))
  ∧ (calculateBackoff 1 DEFAULT_RETRY_CONFIG (Some 5000%Q) w
     = (Normal 5000%Q, w)
     ∧ calculateBackoff 1 DEFAULT_RETRY_CONFIG (Some 20000%Q) w
       = (Normal 10000%Q, w)
     ∧ fst (calculateBackoff 2 DEFAULT_RETRY_CONFIG None
              (initial (always (Rejects connectionRefused)) half epoch))
       = Normal 2000%Q).
Proof.
  assert (hint = None ∨ (∃ h, hint = Some h ∧ (h <= 0)%Q) →
          calculateBackoff attempt config hint w
          = (Normal
               (inject_Z
                  (Qfloor
                     (entropy w (draws w)
                      * ((clampedDelay attempt config
                          + clampedDelay attempt config * (1 # 4))
                         - (clampedDelay attempt config
                            - clampedDelay attempt config * (1 # 4)))
                      + (clampedDelay attempt config
                         - clampedDelay attempt config * (1 # 4)))%Q)),
             set_draws S w)) as Hjitter.
  { intros [->|(h & -> & Hh)]; unfold calculateBackoff; [done|].
    by rewrite (proj2 (gt_false h 0) Hh). }
  split; [|split; [|split]].
  - intros h -> Hh. unfold calculateBackoff.
    by rewrite (proj2 (gt_spec h 0) Hh).
  - intros Hhint _ Hr0 Hr1. eexists. split; [by apply Hjitter|].
    pose proof (jitter_band (clampedDelay attempt config) _ Hr0 Hr1) as Hband.
    split; [exact Hband|]. intros Hc.
    apply Qabs_Qle_condition in Hband. rewrite (Qabs_pos _ Hc) in Hband.
    split; lra.
  - intros Hhint _ Hzero [_ Hinv]. rewrite Hjitter by done.
    assert (clampedDelay attempt config == 0)%Q as Hc.
    { unfold clampedDelay. rewrite Hzero, Qmult_0_l.
      apply Q.min_l. by rewrite <- Hzero. }
    f_equal. f_equal.
    change 0%Q with (inject_Z 0). f_equal.
    rewrite <- (Qfloor_Z 0). apply Qfloor_comp. rewrite Hc. ring.
  - repeat split; reflexivity.
Qed.

Lemma calculateBackoff_delay_witness :
  ∃ v,
    calculateBackoff 3 DEFAULT_RETRY_CONFIG None
      (initial (always (Rejects connectionRefused)) half epoch)
    = (Normal (inject_Z (Qfloor v)),
       set_draws S (initial (always (Rejects connectionRefused)) half epoch))
    ∧ (3000 <= v)%Q ∧ (v <= 5000)%Q.
Proof.
  destruct (calculateBackoff_delay 3 DEFAULT_RETRY_CONFIG None
              (initial (always (Rejects connectionRefused)) half epoch))
    as (_ & Hjitter & _).
  destruct Hjitter as (v & Hrun & _ & Hrange).
  - by left.
  - repeat split; [lia|vm_compute; discriminate..].
  - simpl. unfold half. lra.
  - simpl. unfold half. lra.
  - exists v. split; [exact Hrun|].
    destruct Hrange as [Hlo Hhi]; [vm_compute; discriminate|].
    split.
    + apply (Qle_trans _ ((3 # 4) * clampedDelay 3 DEFAULT_RETRY_CONFIG));
        [vm_compute; discriminate|exact Hlo].
    + apply (Qle_trans _ ((5 # 4) * clampedDelay 3 DEFAULT_RETRY_CONFIG));
        [exact Hhi|vm_compute; discriminate].
Defined.

(** C8.  The code at the failing input.  The header [12abc] is neither a
    number nor a date, and the claim gives it no hint; [parseInt] reads
    its leading digits, and the code returns twelve seconds, for every
    runtime and in every state.  In the same way a date that opens with
    its year, as the ISO format has it, is read as that number of
    seconds. *)
Theorem parseRetryAfter_reads_leading_digits `{Runtime} (w : World) :
  numeric "12abc" = false
  ∧ Reference.Date_parse "12abc" = None
  ∧ parseRetryAfter (Some "12abc") w = (Normal (Some 12000), w)
  ∧ parseRetryAfter (Some "2025-10-21T07:28:00Z") w
    = (Normal (Some 2025000), w).
Proof. repeat split; reflexivity. Qed.

(** C9, as the code has it.  [parseResponseBody] raises exactly when the
    body cannot be read: a body that was already read raises a TypeError
    and nothing changes.  On an unread body it never raises: it returns
    the text unchanged when parsing is disabled, or the text is empty, or
    there is no content type or it does not contain [application/json];
    otherwise it returns what [JSON.parse] makes of the text, and the text
    itself when [JSON.parse] fails.  With a runtime that reads the sample
    body and rejects [not-json]: the sample body with a JSON content type
    is parsed, with parsing disabled it is returned as text, and
    [not-json] comes back as text. *)
Theorem parseResponseBody_outcome `{Runtime} (response : Response.t)
    (parseJson : bool) (w : World) :
  let text := Response.payload response in
  let contentType := Headers_get (Response.headers response) "content-type" in
  let w' := set_bodyUsed (fun l => <[Response.ref response := true]> l) w in
  (bodyUsed w !! Response.ref response ≠ Some false →
     parseResponseBody response parseJson w
     = (Abrupt (ThrowError body_unusable), w))
  ∧ (bodyUsed w !! Response.ref response = Some false →
     (∃ b, parseResponseBody response parseJson w = (Normal b, w'))
     ∧ (parseJson = false ∨ text = EmptyString
        ∨ (∀ ct, contentType = Some ct → ¬ occursIn "application/json" ct) →
        parseResponseBody response parseJson w = (Normal (BodyText text), w'))
     ∧ (∀ ct, parseJson = true → text ≠ EmptyString →
          contentType = Some ct → occursIn "application/json" ct →
          (∀ value, JSON_parse text = Some value →
             parseResponseBody response parseJson w
             = (Normal (BodyJson value), w'))
          ∧ (JSON_parse text = None →
               parseResponseBody response parseJson w
               = (Normal (BodyText text), w')))
     ∧ (∀ value,
          Response.headers response = [("content-type", "application/json")] →
          text = sampleJson → JSON_parse sampleJson = Some value →
          parseResponseBody response true w = (Normal (BodyJson value), w')
          ∧ parseResponseBody response false w
            = (Normal (BodyText sampleJson), w'))
     ∧ (Response.headers response = [("content-type", "application/json")] →
          text = "not-json" → JSON_parse "not-json" = None →
          parseResponseBody response true w
          = (Normal (BodyText "not-json"), w'))).
Proof.
  intros text contentType w'. split; [apply parseResponseBody_used|].
  intros Hfresh.
  assert (∀ flag, parseResponseBody response flag w
          = (Normal (interpreted flag (Response.headers response) text), w'))
    as Hrun.
  { intros flag. by apply parseResponseBody_fresh. }
  split; [by eexists|]. split; [|split; [|split]].
  - intros Hplain. rewrite Hrun. f_equal. f_equal. unfold interpreted.
    destruct Hplain as [->|[Hempty|Hct]]; [done| |].
    + rewrite Hempty. by rewrite orb_true_r.
    + destruct (negb parseJson || negb (Js.truthy text)); [done|].
      fold contentType. destruct contentType as [ct|]; [|done].
      destruct (Js.includes "application/json" ct) eqn:Hin; [|done].
      apply includes_spec in Hin. by destruct (Hct ct).
  - intros ct -> Htext Hct Hin. apply includes_spec in Hin.
    assert (interpreted true (Response.headers response) text
            = match JSON_parse text with
              | Some value => BodyJson value
              | None => BodyText text
              end) as Hjson.
    { unfold interpreted. fold contentType. rewrite Hct, Hin.
      by destruct text. }
    rewrite Hrun, Hjson. split.
    + by intros value ->.
    + by intros ->.
  - intros value Hhdrs Htext Hparse. rewrite !Hrun. unfold interpreted.
    rewrite Hhdrs, Htext, Hparse. done.
  - intros Hhdrs Htext Hparse. rewrite Hrun. unfold interpreted.
    rewrite Hhdrs, Htext, Hparse. done.
Qed.

(** C9, as stated, fails: reading the body of the same response a second
    time raises. *)
Lemma parseResponseBody_raises_on_second_read :
  fst (@bind Response.t Body (fetch sampleURL "POST" ∅ sampleToken)
         (fun response =>
            @bind Body Body (@parseResponseBody Reference.runtime response true)
              (fun _ => @parseResponseBody Reference.runtime response true))
         (initial (always (Resolves (jsonReply 200 sampleJson))) half epoch))
  = Abrupt (ThrowError body_unusable).
Proof. reflexivity. Qed.

Lemma parseResponseBody_outcome_witness :
  let response := responseOf (initial (always (Resolves (bare 200))) half epoch)
                             (jsonReply 200 sampleJson) in
  let w := set_bodyUsed (fun l => l ++ [false])
             (initial (always (Resolves (bare 200))) half epoch) in
  fst (@parseResponseBody Reference.runtime response true w)
  = Normal (BodyJson (JObject [("a", JNumber 1)]))
  ∧ fst (@parseResponseBody Reference.runtime response false w)
    = Normal (BodyText sampleJson).
Proof.
  intros response w.
  destruct (@parseResponseBody_outcome Reference.runtime response true w)
    as (_ & Hfresh).
  destruct (Hfresh eq_refl) as (_ & _ & _ & Hsample & _).
  destruct (Hsample (JObject [("a", JNumber 1)]) eq_refl eq_refl eq_refl)
    as [-> ->].
  split; reflexivity.
Defined.

(** C10.  [isValidSET] accepts exactly the strings made of three segments
    separated by two dots, each segment non-empty and made of URL-safe
    base64 characters only; these are the strings that split on the dot
    into exactly three such segments.  For every token it rejects,
    [transmitSET] raises a ValidationError and the world is unchanged:
    nothing was dispatched. *)
Theorem token_validation `{Runtime} (jwt : string) :
  (isValidSET jwt = true
   ↔ ∃ h p s, jwt = h +:+ "." +:+ p +:+ "." +:+ s
              ∧ segment h ∧ segment p ∧ segment s)
  ∧ (isValidSET jwt = true
     ↔ ∃ h p s, Js.split "." jwt = [h; p; s]
                ∧ segment h ∧ segment p ∧ segment s)
  ∧ (isValidSET jwt = false →
     ∀ url options w,
       ∃ e, transmitSET jwt url options w = (Abrupt (ThrowError e), w)
            ∧ cls e = ValidationError).
Proof.
  assert (isValidSET jwt = true
     ↔ ∃ h p s, Js.split "." jwt = [h; p; s]
                ∧ segment h ∧ segment p ∧ segment s) as Hsplit.
  { unfold isValidSET. split.
    - destruct (Js.split "." jwt) as [|h [|p [|s [|]]]] eqn:E; try done.
      simpl. rewrite !andb_true_iff, !regex_segment.
      intros (?&?&?&_). by exists h, p, s.
    - intros (h & p & s & -> & Hh & Hp & Hs). simpl.
      rewrite !andb_true_iff, !regex_segment. done. }
  split; [|split; [done|]].
  - rewrite Hsplit. split; intros (h & p & s & Hjwt & Hh & Hp & Hs);
      exists h, p, s; (split; [|done]).
    + rewrite <- (join_split "." jwt), Hjwt. done.
    + rewrite Hjwt.
      change (h +:+ "." +:+ p +:+ "." +:+ s)
        with (h +:+ String "." (p +:+ String "." s)).
      rewrite split_prefix by by apply segment_no_dot.
      rewrite split_prefix by by apply segment_no_dot.
      by rewrite split_whole by by apply segment_no_dot.
  - intros Hbad url options w. unfold transmitSET. rewrite Hbad. by eexists.
Qed.

Lemma token_validation_witness :
  isValidSET "header.payload.signature" = true
  ∧ ∃ e,
      @transmitSET Reference.runtime "part1..part3" sampleURL no_options
        (initial (always (Resolves (bare 200))) half epoch)
      = (Abrupt (ThrowError e),
         initial (always (Resolves (bare 200))) half epoch)
      ∧ cls e = ValidationError.
Proof.
  split.
  - destruct (@token_validation Reference.runtime "header.payload.signature")
      as ([_ Haccept] & _).
    apply Haccept. exists "header", "payload", "signature".
    repeat split; try reflexivity; try discriminate;
      intros c Hc; apply base64urlChar_urlSafe;
      (eapply forallb_forall; [|apply list_elem_of_In; exact Hc]); reflexivity.
  - destruct (@token_validation Reference.runtime "part1..part3")
      as (_ & _ & Hreject).
    apply Hreject. reflexivity.
Defined.

(** * Further properties of the helpers *)

(** X1.  [normalizeAuthToken] is idempotent: normalising its result changes
    nothing.  It gives no header exactly for an absent or empty credential,
    and every header it gives is the word Bearer and a space, followed by
    credentials. *)
Theorem normalizeAuthToken_bearer (token : option string) :
  normalizeAuthToken (normalizeAuthToken token) = normalizeAuthToken token
  ∧ (normalizeAuthToken token = None ↔ token = None ∨ token = Some EmptyString)
  ∧ (∀ header, normalizeAuthToken token = Some header →
       ∃ credentials, header = "Bearer " +:+ credentials).
Proof.
  unfold normalizeAuthToken.
  destruct token as [t|]; [|by split; [|split; [split; [left|]|]]].
  destruct t as [|c t]; [by split; [|split; [split; [right|]|]]|].
  cbn [Js.truthy negb].
  destruct (Js.startsWith "Bearer " (String c t)) eqn:E.
  - split; [by rewrite E|]. split; [split; [done|by intros [|]]|].
    intros header [= <-]. by apply startsWith_spec.
  - split; [done|]. split; [split; [done|by intros [|]]|].
    intros header [= <-]. by eexists.
Qed.

Lemma parseResponseHeaders_snoc (hs : Headers) (key value : string) :
  parseResponseHeaders (hs ++ [(key, value)])
  = if bool_decide (key = "__proto__") then parseResponseHeaders hs
    else <[key := value]> (parseResponseHeaders hs).
Proof. unfold parseResponseHeaders. by rewrite fold_left_app. Qed.

(** X2.  The own properties of the object that [parseResponseHeaders]
    builds: under each name other than [__proto__] that has an entry, the
    value of the last entry with that name, a later entry replacing an
    earlier one of the same name; no property under a name that no entry
    has, and none under [__proto__], whatever the entries. *)
Theorem parseResponseHeaders_last_wins (hs : Headers) (key : string) :
  parseResponseHeaders hs !! key
  = if decide (key = "__proto__") then None
    else snd <$> List.find (fun kv => bool_decide (fst kv = key)) (reverse hs).
Proof.
  induction hs as [|[k v] hs IH] using rev_ind.
  { by destruct (decide (key = "__proto__")). }
  rewrite parseResponseHeaders_snoc, reverse_snoc. simpl.
  destruct (decide (k = key)) as [->|Hne].
  - rewrite (bool_decide_eq_true_2 (key = key)) by done.
    destruct (decide (key = "__proto__")) as [Hp|Hp].
    + rewrite bool_decide_eq_true_2 by done. rewrite IH.
      by destruct (decide (key = "__proto__")).
    + rewrite bool_decide_eq_false_2 by done. by rewrite lookup_insert_eq.
  - rewrite (bool_decide_eq_false_2 (k = key)) by done.
    destruct (bool_decide (k = "__proto__")); [done|].
    by rewrite lookup_insert_ne.
Qed.

Lemma find_unique (hs : list (string * string)) (key : string) :
  (length (filter (fun kv => fst kv = key) hs) ≤ 1)%nat →
  List.find (fun kv => bool_decide (fst kv = key)) (reverse hs)
  = List.find (fun kv => bool_decide (fst kv = key)) hs.
Proof.
  assert (∀ l : list (string * string),
            filter (fun kv => fst kv = key) l = [] →
            List.find (fun kv => bool_decide (fst kv = key)) l = None) as Hnone.
  { intros l. induction l as [|[k' v'] l IHl]; [done|].
    rewrite filter_cons. simpl.
    destruct (decide (k' = key)) as [->|Hne]; [done|].
    rewrite bool_decide_eq_false_2 by done. apply IHl. }
  assert (∀ (l1 l2 : list (string * string)),
            List.find (fun kv => bool_decide (fst kv = key)) l1 = None →
            List.find (fun kv => bool_decide (fst kv = key)) (l1 ++ l2)
            = List.find (fun kv => bool_decide (fst kv = key)) l2) as Happ.
  { intros l1 l2. induction l1 as [|[k' v'] l1 IHl]; [done|]. simpl.
    destruct (bool_decide (k' = key)); [done|]. apply IHl. }
  induction hs as [|[k v] hs IH]; [done|].
  rewrite filter_cons, reverse_cons. simpl.
  destruct (decide (k = key)) as [->|Hne].
  - simpl. intros Hone. rewrite bool_decide_eq_true_2 by done.
    rewrite Happ.
    + simpl. by rewrite bool_decide_eq_true_2.
    + apply Hnone. rewrite filter_reverse.
      destruct (filter _ hs); [done|simpl in Hone; lia].
  - intros Hone. rewrite bool_decide_eq_false_2 by done.
    rewrite <- IH by done.
    generalize (reverse hs). intros l.
    induction l as [|[k' v'] l IHl]; simpl.
    + by rewrite bool_decide_eq_false_2.
    + destruct (bool_decide (k' = key)); [done|]. apply IHl.
Qed.

(** X3.  For a header name, other than [__proto__], that has exactly one
    entry in a [Headers] object (as every name that is present has, but
    for [set-cookie]), the header that [headers.get(name)] returns (the
    one [parseResponseBody] consults for the content type) is the value
    that [parseResponseHeaders] stores under the lower-cased name. *)
Theorem parseResponseHeaders_get (hs : Headers) (name : string) :
  toLowerCase name ≠ "__proto__" →
  length (filter (fun kv => fst kv = toLowerCase name) hs) = 1%nat →
  ∃ value,
    Headers_get hs name = Some value
    ∧ parseResponseHeaders hs !! toLowerCase name = Some value.
Proof.
  unfold Headers in *.
  intros Hname Hone. rewrite parseResponseHeaders_last_wins.
  rewrite decide_False by done. unfold Headers_get.
  rewrite find_unique by lia.
  assert (∀ l : list (string * string),
            (0 < length (filter (fun kv => fst kv = toLowerCase name) l))%nat →
            is_Some (List.find
                       (fun kv => bool_decide (fst kv = toLowerCase name)) l))
    as Hsome.
  { intros l. induction l as [|[k v] l IHl]; simpl; [lia|].
    rewrite filter_cons. simpl.
    destruct (decide (k = toLowerCase name)) as [->|Hne].
    - intros _. by rewrite bool_decide_eq_true_2.
    - rewrite bool_decide_eq_false_2 by done. apply IHl. }
  destruct (Hsome hs) as [kv Hkv]; [lia|].
  exists (snd kv). by rewrite Hkv.
Qed.

Lemma parseResponseHeaders_get_witness :
  ∃ value,
    Headers_get [("content-type", "application/json"); ("set-cookie", "a=1");
                 ("set-cookie", "b=2")]
                "Content-Type" = Some value
    ∧ parseResponseHeaders
        [("content-type", "application/json"); ("set-cookie", "a=1");
         ("set-cookie", "b=2")]
        !! toLowerCase "Content-Type" = Some value.
Proof.
  apply (parseResponseHeaders_get
           [("content-type", "application/json"); ("set-cookie", "a=1");
            ("set-cookie", "b=2")]
           "Content-Type").
  - vm_compute. discriminate.
  - vm_compute. reflexivity.
Defined.

(** X4.  The headers of every request: an entry of the caller's [headers]
    wins under its exact name; otherwise [Content-Type], [Accept] and
    [User-Agent] carry the fixed values, [Authorization] carries the
    normalised credential when there is one, and no other header is sent. *)
Theorem requestHeaders_lookup (mergedOptions : MergedOptions) (key : string) :
  requestHeaders mergedOptions !! key
  = match merged_headers mergedOptions !! key with
    | Some value => Some value
    | None =>
        if decide (key = "Content-Type") then Some CONTENT_TYPE_SET
        else if decide (key = "Accept") then Some CONTENT_TYPE_JSON
        else if decide (key = "User-Agent") then Some DEFAULT_USER_AGENT
        else if decide (key = "Authorization")
             then normalizeAuthToken (merged_authToken mergedOptions)
             else None
    end.
Proof.
  unfold requestHeaders, mergeHeaders.
  rewrite lookup_union.
  destruct (merged_headers mergedOptions !! key) as [value|] eqn:E.
  { by rewrite union_Some_l. }
  rewrite (left_id None _).
  assert (∀ token, normalizeAuthToken (merged_authToken mergedOptions)
                   = Some token → Js.truthy token = true) as Htruthy.
  { intros token. unfold normalizeAuthToken.
    destruct (merged_authToken mergedOptions) as [t|]; [|done].
    destruct t as [|c t]; [done|]. cbn [Js.truthy negb].
    destruct (Js.startsWith _ _); by intros [= <-]. }
  destruct (normalizeAuthToken (merged_authToken mergedOptions)) as [token|].
  - rewrite (Htruthy token eq_refl).
    repeat (case_decide; [subst; by simplify_map_eq|]).
    by simplify_map_eq.
  - repeat (case_decide; [subst; by simplify_map_eq|]).
    by simplify_map_eq.
Qed.

(** * Further properties of the backoff calculator *)

(** The jittered branch of [calculateBackoff], in terms of the clamped
    delay. *)
Lemma calculateBackoff_jittered (attempt : Z) (config : RetryConfig)
    (hint : option Q) (w : World) :
  match hint with Some h => (h <= 0)%Q | None => True end →
  calculateBackoff attempt config hint w
  = (Normal
       (inject_Z
          (Qfloor
             (entropy w (draws w)
              * ((clampedDelay attempt config
                  + clampedDelay attempt config * (1 # 4))
                 - (clampedDelay attempt config
                    - clampedDelay attempt config * (1 # 4)))
              + (clampedDelay attempt config
                 - clampedDelay attempt config * (1 # 4)))%Q)),
     set_draws S w).
Proof.
  unfold calculateBackoff. destruct hint as [h|]; [|done].
  intros Hh. by rewrite (proj2 (gt_false h 0) Hh).
Qed.

(** X5.  While the numbers of the computation stay within the range of
    doubles, with backoffMs, the multiplier and maxBackoffMs not negative,
    the wait that [calculateBackoff] returns is between 0 and 1.25 times
    maxBackoffMs, whatever the hint and the draw in [0, 1). *)
Theorem calculateBackoff_range (attempt : Z) (config : RetryConfig)
    (hint : option Q) (w : World) :
  withinDoubles attempt config →
  (0 <= backoffMs config)%Q → (0 <= backoffMultiplier config)%Q →
  (0 <= maxBackoffMs config)%Q →
  (0 <= entropy w (draws w))%Q → (entropy w (draws w) < 1)%Q →
  ∃ v w',
    calculateBackoff attempt config hint w = (Normal v, w')
    ∧ (0 <= v)%Q
    ∧ (v <= (5 # 4) * maxBackoffMs config)%Q.
Proof.
  intros _ Hb Hm Hmax Hr0 Hr1.
  assert (0 <= clampedDelay attempt config)%Q as Hc0.
  { apply Q.min_glb; [|done]. apply Qmult_le_0_compat; [done|].
    by apply Qpower_0_le. }
  destruct hint as [h|]; [destruct (Qlt_le_dec 0 h) as [Hpos|Hneg]|].
  - exists (Qmin h (maxBackoffMs config)), w. split; [|split].
    + unfold calculateBackoff. by rewrite (proj2 (gt_spec h 0) Hpos).
    + apply Q.min_glb; lra.
    + pose proof (Q.le_min_r h (maxBackoffMs config)). lra.
  - eexists _, _. split; [by apply (calculateBackoff_jittered _ _ (Some h))|].
    set (c := clampedDelay attempt config) in *.
    set (r := entropy w (draws w)) in *.
    assert (c <= maxBackoffMs config)%Q as Hc by apply Q.le_min_r.
    split.
    + change 0%Q with (inject_Z 0). rewrite <- Zle_Qle.
      rewrite <- (Qfloor_Z 0). apply Qfloor_resp_le.
      change (inject_Z 0) with 0%Q.
      pose proof (Qmult_le_0_compat r c Hr0 Hc0). lra.
    + eapply Qle_trans; [apply Qfloor_le|]. nra.
  - eexists _, _. split; [by apply (calculateBackoff_jittered _ _ None)|].
    set (c := clampedDelay attempt config) in *.
    set (r := entropy w (draws w)) in *.
    assert (c <= maxBackoffMs config)%Q as Hc by apply Q.le_min_r.
    split.
    + change 0%Q with (inject_Z 0). rewrite <- Zle_Qle.
      rewrite <- (Qfloor_Z 0). apply Qfloor_resp_le.
      change (inject_Z 0) with 0%Q.
      pose proof (Qmult_le_0_compat r c Hr0 Hc0). lra.
    + eapply Qle_trans; [apply Qfloor_le|]. nra.
Qed.

Lemma calculateBackoff_range_witness :
  ∃ v w',
    calculateBackoff 10 DEFAULT_RETRY_CONFIG None
      (initial (always (Rejects connectionRefused)) half epoch)
    = (Normal v, w')
    ∧ (0 <= v)%Q ∧ (v <= 12500)%Q.
Proof.
  destruct (calculateBackoff_range 10 DEFAULT_RETRY_CONFIG None
              (initial (always (Rejects connectionRefused)) half epoch))
    as (v & w' & Hrun & Hlo & Hhi).
  - repeat split; [lia|vm_compute; discriminate..].
  - vm_compute. discriminate.
  - vm_compute. discriminate.
  - vm_compute. discriminate.
  - vm_compute. discriminate.
  - vm_compute. reflexivity.
  - exists v, w'. split; [exact Hrun|]. split; [exact Hlo|].
    eapply Qle_trans; [exact Hhi|]. vm_compute. discriminate.
Defined.

(** X6.  maxBackoffMs caps the delay before the jitter is applied, not the
    wait itself: once the exponential delay has reached maxBackoffMs, a
    draw r with maxBackoffMs * (2r - 1) >= 4 gives a wait strictly above
    maxBackoffMs. *)
Theorem calculateBackoff_above_cap (attempt : Z) (config : RetryConfig)
    (hint : option Q) (w : World) :
  match hint with Some h => (h <= 0)%Q | None => True end →
  (maxBackoffMs config
   <= backoffMs config * Qpower (backoffMultiplier config) (attempt - 1))%Q →
  (4 <= maxBackoffMs config * (2 * entropy w (draws w) - 1))%Q →
  ∃ v w',
    calculateBackoff attempt config hint w = (Normal v, w')
    ∧ (maxBackoffMs config < v)%Q.
Proof.
  intros Hhint Hreached Hdraw.
  eexists _, _. split; [by apply calculateBackoff_jittered|].
  assert (clampedDelay attempt config == maxBackoffMs config)%Q as Hc.
  { unfold clampedDelay. by apply Q.min_r. }
  set (c := clampedDelay attempt config) in *.
  set (r := entropy w (draws w)) in *.
  set (x := (r * (c + c * (1 # 4) - (c - c * (1 # 4))) + (c - c * (1 # 4)))%Q).
  pose proof (Qlt_floor x) as Hfloor.
  rewrite inject_Z_plus in Hfloor. change (inject_Z 1) with 1%Q in Hfloor.
  assert (maxBackoffMs config + 1 <= x)%Q; [|lra].
  unfold x. rewrite Hc. lra.
Qed.

Lemma calculateBackoff_above_cap_witness :
  ∃ v w',
    calculateBackoff 10 DEFAULT_RETRY_CONFIG None
      (initial (always (Rejects connectionRefused)) (fun _ => 3 # 4) epoch)
    = (Normal v, w')
    ∧ (10000 < v)%Q.
Proof.
  apply (calculateBackoff_above_cap 10 DEFAULT_RETRY_CONFIG None
           (initial (always (Rejects connectionRefused)) (fun _ => 3 # 4) epoch)).
  - exact I.
  - vm_compute. discriminate.
  - vm_compute. discriminate.
Defined.

(** X7.  Under one and the same draw the jittered wait never shrinks from
    an attempt to a later one, when backoffMs is not negative, the
    multiplier is at least 1, and the numbers of both computations stay
    within the range of doubles. *)
Theorem calculateBackoff_grows (earlier later : Z) (config : RetryConfig)
    (w : World) :
  earlier <= later →
  withinDoubles earlier config → withinDoubles later config →
  (0 <= backoffMs config)%Q → (1 <= backoffMultiplier config)%Q →
  (0 <= entropy w (draws w))%Q →
  ∃ v1 v2 w',
    calculateBackoff earlier config None w = (Normal v1, w')
    ∧ calculateBackoff later config None w = (Normal v2, w')
    ∧ (v1 <= v2)%Q.
Proof.
  intros Hle _ _ Hb Hm Hr.
  eexists _, _, _.
  split; [by apply (calculateBackoff_jittered _ _ None)|].
  split; [by apply (calculateBackoff_jittered _ _ None)|].
  assert (clampedDelay earlier config <= clampedDelay later config)%Q as Hc.
  { unfold clampedDelay. apply Q.min_le_compat_r.
    pose proof (Qpower_le_compat_l (backoffMultiplier config) (earlier - 1)
                  (later - 1) ltac:(lia) Hm) as Hp.
    nra. }
  set (c1 := clampedDelay earlier config) in *.
  set (c2 := clampedDelay later config) in *.
  set (r := entropy w (draws w)) in *.
  rewrite <- Zle_Qle. apply Qfloor_resp_le. nra.
Qed.

Lemma calculateBackoff_grows_witness :
  ∃ v1 v2 w',
    calculateBackoff 1 DEFAULT_RETRY_CONFIG None
      (initial (always (Rejects connectionRefused)) half epoch)
    = (Normal v1, w')
    ∧ calculateBackoff 2 DEFAULT_RETRY_CONFIG None
        (initial (always (Rejects connectionRefused)) half epoch)
      = (Normal v2, w')
    ∧ (v1 <= v2)%Q.
Proof.
  apply (calculateBackoff_grows 1 2 DEFAULT_RETRY_CONFIG
           (initial (always (Rejects connectionRefused)) half epoch)).
  - lia.
  - repeat split; [lia|vm_compute; discriminate..].
  - repeat split; [lia|vm_compute; discriminate..].
  - vm_compute. discriminate.
  - vm_compute. discriminate.
  - vm_compute. discriminate.
Defined.

(** * The trace of a call: requests, bodies and waits *)

Section Trace.
Context `{Runtime}.
Variables (jwt href : string) (mergedOptions : MergedOptions)
          (hdrs : gmap string string).

Let pass := attemptOnce jwt href mergedOptions hdrs.
Let rq := dispatchOf jwt href hdrs.

Lemma calculateBackoff_quiet attempt config hint w :
  ∃ v w', calculateBackoff attempt config hint w = (Normal v, w')
          ∧ requests w' = requests w ∧ sleeps w' = sleeps w.
Proof.
  unfold calculateBackoff.
  destruct hint as [h|]; [destruct (Num.gt h 0)|]; by eexists _, _.
Qed.

Lemma parseRetryAfter_quiet header w :
  ∃ v w', parseRetryAfter header w = (Normal v, w')
          ∧ requests w' = requests w ∧ sleeps w' = sleeps w.
Proof.
  unfold parseRetryAfter.
  destruct header as [s|]; [|by eexists _, _].
  destruct (negb (Js.truthy s)); [by eexists _, _|].
  destruct (Num.parseInt s); [by eexists _, _|].
  destruct (Date_parse s); by eexists _, _.
Qed.

(** What one pass adds to the log of requests and to the log of waits. *)
Lemma attemptOnce_log attempt w :
  ∃ step w' waited,
    pass attempt w = (Normal step, w')
    ∧ requests w' = requests w ++ [rq]
    ∧ sleeps w' = sleeps w ++ waited
    ∧ length waited
      = if waits mergedOptions attempt (network w (length (requests w)))
        then 1%nat else 0%nat.
Proof.
  unfold pass, attemptOnce, try_catch, bind, modify, throw, ret, fetch, delay.
  destruct (network w (length (requests w))) as [reason|reply] eqn:Hnet;
    cbn [waits].
  - destruct (shouldRetry None attempt (merged_retry mergedOptions));
      cbn -[calculateBackoff instanceof_ValidationError transportError].
    + match goal with
      | |- context [calculateBackoff ?a ?c ?h ?w0] =>
          destruct (calculateBackoff_quiet a c h w0) as (v & w1 & -> & Hrq & Hsl)
      end.
      eexists _, _, [v]. split; [reflexivity|]. simpl.
      rewrite Hrq, Hsl. done.
    + rewrite transportError_not_validation.
      eexists _, _, []. split; [reflexivity|]. simpl.
      by rewrite app_nil_r.
  - rewrite parseResponseBody_fresh
      by (simpl; by rewrite lookup_app_r, Nat.sub_diag by done).
    cbn [Response.status Response.headers Response.payload Response.ref].
    destruct (merged_validateStatus mergedOptions (reply_status reply));
      cbn [negb andb].
    { eexists _, _, []. split; [reflexivity|]. simpl. by rewrite app_nil_r. }
    destruct (shouldRetry (Some (reply_status reply)) attempt
                          (merged_retry mergedOptions));
      cbn -[calculateBackoff parseRetryAfter].
    2: { eexists _, _, []. split; [reflexivity|]. simpl. by rewrite app_nil_r. }
    match goal with
    | |- context [parseRetryAfter ?h ?w0] =>
        destruct (parseRetryAfter_quiet h w0) as (ra & w1 & -> & Hrq1 & Hsl1)
    end.
    match goal with
    | |- context [calculateBackoff ?a ?c ?h ?w0] =>
        destruct (calculateBackoff_quiet a c h w0) as (v & w2 & -> & Hrq2 & Hsl2)
    end.
    eexists _, _, [v]. split; [reflexivity|]. simpl.
    rewrite Hrq2, Hrq1, Hsl2, Hsl1. done.
Qed.

(** The loop from attempt number [a] to the last one: what it dispatches,
    which bodies it leaves read, how often it waits, and what it returns. *)
Lemma loop_trace (len : nat) : ∀ (a : Z) (w : World),
  ((0 < len)%nat →
   a + Z.of_nat len - 1 = maxAttempts (merged_retry mergedOptions)) →
  recorded mergedOptions w →
  ∃ returned w' (k j : nat) waited,
    for_each (seqZ a (Z.of_nat len)) pass w = (Normal returned, w')
    ∧ (k ≤ len)%nat ∧ ((0 < len)%nat → (0 < k)%nat) ∧ (j ≤ k)%nat
    ∧ requests w' = requests w ++ replicate k rq
    ∧ bodyUsed w' = bodyUsed w ++ replicate j true
    ∧ sleeps w' = sleeps w ++ waited ∧ length waited = (k - 1)%nat
    ∧ match returned with
      | Some result => coherent mergedOptions result
      | None => k = len ∧ recorded mergedOptions w'
      end.
Proof.
  induction len as [|n IH]; intros a w Hcap Hrec.
  { exists None, w, 0%nat, 0%nat, []. simpl. rewrite !app_nil_r.
    split; [done|]. split; [lia|]. split; [lia|]. split; [lia|].
    by repeat (split; [done|]). }
  rewrite seqZ_cons by lia.
  replace (Z.pred (Z.of_nat (S n))) with (Z.of_nat n) by lia.
  destruct (attemptOnce_log a w)
    as (step & w1 & waited1 & Hstep & Hrq & Hsl & Hlen).
  destruct (network w (length (requests w))) as [reason|reply] eqn:Hnet.
  - destruct (attemptOnce_rejected jwt href mergedOptions hdrs a w reason Hnet)
      as (w1' & Hstep' & (_ & _ & Hused & Hlr & _)).
    fold pass in Hstep'. rewrite Hstep in Hstep'.
    injection Hstep' as -> <-.
    destruct (IH (Z.succ a) w1) as
      (returned & w' & k & j & waited & Hloop & Hk & Hpos & Hj
       & Hrq' & Hused' & Hsl' & Hlen' & Hret).
    { lia. }
    { intros r Hr. rewrite Hlr in Hr. rewrite Hused. by apply Hrec. }
    exists returned, w', (S k), j, (waited1 ++ waited).
    rewrite (for_each_continue _ _ _ _ _ _ _ _ Hstep).
    split; [exact Hloop|]. split; [lia|]. split; [lia|]. split; [lia|].
    split; [by rewrite Hrq', Hrq, <- app_assoc|].
    split; [by rewrite Hused', Hused|].
    split; [by rewrite Hsl', Hsl, <- app_assoc|].
    split.
    + rewrite length_app, Hlen, Hlen'. cbn [waits]. unfold shouldRetry.
      destruct (decide (n = 0)%nat) as [->|Hn].
      * rewrite (proj2 (Z.geb_le _ _)) by lia. lia.
      * destruct (a >=? _) eqn:E; [apply Z.geb_le in E; lia|]. lia.
    + destruct returned as [result|]; [done|].
      destruct Hret as [-> Hrec']. by split.
  - destruct (attemptOnce_resolved jwt href mergedOptions hdrs a w reply Hnet)
      as (w1' & (_ & _ & Hused & Hlr & _) & Hstep').
    fold pass in Hstep'. rewrite Hstep in Hstep'. cbn [waits] in Hlen.
    destruct (merged_validateStatus mergedOptions (reply_status reply)) eqn:Hv.
    { injection Hstep' as -> <-.
      exists (Some (successOf mergedOptions reply)), w1, 1%nat, 1%nat, waited1.
      rewrite (for_each_return _ _ _ _ _ _ _ _ _ Hstep).
      repeat split; try done; try lia. }
    destruct (shouldRetry (Some (reply_status reply)) a
                          (merged_retry mergedOptions)) eqn:Hretry.
    2: { injection Hstep' as -> <-.
         exists (Some (failureOf mergedOptions reply)), w1, 1%nat, 1%nat, waited1.
         rewrite (for_each_return _ _ _ _ _ _ _ _ _ Hstep).
         repeat split; try done; try lia; by eexists. }
    injection Hstep' as -> <-.
    assert (0 < n)%nat as Hn.
    { unfold shouldRetry in Hretry.
      destruct (a >=? _) eqn:E; [done|].
      rewrite Z.geb_leb in E. apply Z.leb_gt in E. lia. }
    destruct (IH (Z.succ a) w1) as
      (returned & w' & k & j & waited & Hloop & Hk & Hpos & Hj
       & Hrq' & Hused' & Hsl' & Hlen' & Hret).
    { lia. }
    { intros r Hr. rewrite Hlr in Hr. injection Hr as <-.
      split; [done|]. rewrite Hused. simpl.
      by rewrite lookup_app_r, Nat.sub_diag by done. }
    exists returned, w', (S k), (S j), (waited1 ++ waited).
    rewrite (for_each_continue _ _ _ _ _ _ _ _ Hstep).
    split; [exact Hloop|]. split; [lia|]. split; [lia|]. split; [lia|].
    split; [by rewrite Hrq', Hrq, <- app_assoc|].
    split; [by rewrite Hused', Hused, <- app_assoc|].
    split; [by rewrite Hsl', Hsl, <- app_assoc|].
    split.
    + rewrite length_app, Hlen, Hlen'. simpl. specialize (Hpos Hn). lia.
    + destruct returned as [result|]; [done|].
      destruct Hret as [-> Hrec']. by split.
Qed.

End Trace.

Section CallTrace.
Context `{Runtime}.
Variables (jwt url href : string) (options : TransmitOptions).
Hypothesis token_ok : isValidSET jwt = true.
Hypothesis url_ok : URL_parse url = Some href.

Let mo := mergeOptions options.
Let cap := maxAttempts (merged_retry mo).

(** The trace of a whole call. *)
Lemma transmitSET_trace w :
  ∃ completion w' (k j : nat) waited,
    transmitSET jwt url options w = (completion, w')
    ∧ (k ≤ Z.to_nat cap)%nat ∧ (0 < cap → (0 < k)%nat) ∧ (j ≤ k)%nat
    ∧ requests w'
      = requests w ++ replicate k (dispatchOf jwt href (requestHeaders mo))
    ∧ bodyUsed w' = bodyUsed w ++ replicate j true
    ∧ sleeps w' = sleeps w ++ waited ∧ length waited = (k - 1)%nat
    ∧ match completion with
      | Normal result => coherent mo result
      | Abrupt _ => True
      end.
Proof.
  rewrite (transmitSET_enter jwt url href options token_ok url_ok).
  fold mo. fold cap.
  destruct (loop_trace jwt href mo (requestHeaders mo) (Z.to_nat cap) 1
              (entered w))
    as (returned & w1 & k & j & waited & Hloop & Hk & Hpos & Hj
        & Hrq & Hused & Hsl & Hlen & Hret).
  { fold cap. lia. }
  { intros r Hr. discriminate Hr. }
  assert (seqZ 1 cap = seqZ 1 (Z.of_nat (Z.to_nat cap))) as ->.
  { destruct (decide (cap <= 0)) as [Hle|Hgt].
    - rewrite seqZ_nil by done. by rewrite seqZ_nil by lia.
    - by rewrite Z2Nat.id by lia. }
  rewrite Hloop.
  destruct returned as [result|].
  { exists (Normal result), w1, k, j, waited. repeat split; try done; lia. }
  destruct Hret as [-> Hrec].
  destruct (lastResponse w1) as [r|] eqn:Hlr.
  - destruct (Hrec r Hlr) as [Hv Hread].
    destruct (afterLoop_recorded mo w1 r Hlr) as (b & w2 & -> & Hbody & _).
    destruct Hbody as [-> ->]; [by rewrite Hread|].
    eexists (Normal _), w1, _, j, waited.
    split; [reflexivity|].
    repeat split; try done; try lia; by eexists.
  - rewrite afterLoop_empty by done.
    eexists (Abrupt _), w1, _, j, waited.
    split; [reflexivity|].
    repeat split; try done; try lia.
Qed.

End CallTrace.

(** * Further properties of the whole call *)

Lemma transmitSET_invalid `{Runtime} (jwt url : string)
    (options : TransmitOptions) (w : World) :
  isValidSET jwt = false ∨ URL_parse url = None →
  ∃ t, transmitSET jwt url options w = (Abrupt t, w).
Proof.
  intros Hbad. unfold transmitSET.
  destruct (isValidSET jwt) eqn:Htoken; simpl.
  - destruct Hbad as [?|Hurl]; [done|]. rewrite Hurl. by eexists.
  - by eexists.
Qed.

(** The trace of a call, whatever its arguments. *)
Lemma transmitSET_trace_total `{Runtime} (jwt url : string)
    (options : TransmitOptions) (w : World) :
  ∃ completion w' sent (j : nat) waited,
    transmitSET jwt url options w = (completion, w')
    ∧ requests w' = requests w ++ sent
    ∧ bodyUsed w' = bodyUsed w ++ replicate j true
    ∧ (j ≤ length sent)%nat
    ∧ sleeps w' = sleeps w ++ waited
    ∧ length waited = (length sent - 1)%nat
    ∧ match completion with
      | Normal result => coherent (mergeOptions options) result
      | Abrupt _ => True
      end.
Proof.
  destruct (isValidSET jwt) eqn:Htoken.
  2: { destruct (transmitSET_invalid jwt url options w) as [t ->]; [by left|].
       exists (Abrupt t), w, [], 0%nat, []. by rewrite !app_nil_r. }
  destruct (URL_parse url) as [href|] eqn:Hurl.
  2: { destruct (transmitSET_invalid jwt url options w) as [t ->]; [by right|].
       exists (Abrupt t), w, [], 0%nat, []. by rewrite !app_nil_r. }
  destruct (transmitSET_trace jwt url href options Htoken Hurl w)
    as (completion & w' & k & j & waited & Hrun & _ & _ & Hj & Hrq & Hused
        & Hsl & Hlen & Hret).
  exists completion, w', (replicate k (dispatchOf jwt href
                                         (requestHeaders (mergeOptions options)))),
    j, waited.
  rewrite length_replicate. by repeat (split; [done|]).
Qed.

(** X8.  With a valid token and URL, every request of a call is the same
    POST: to the serialised URL, with the token as its body and the
    composed headers.  The call dispatches at most maxAttempts requests,
    and at least one when maxAttempts is positive. *)
Theorem transmitSET_dispatches `{Runtime} (jwt url href : string)
    (options : TransmitOptions) (w : World) :
  let mo := mergeOptions options in
  isValidSET jwt = true → URL_parse url = Some href →
  ∃ completion w' (k : nat),
    transmitSET jwt url options w = (completion, w')
    ∧ requests w'
      = requests w
        ++ replicate k {| req_url := href; req_method := "POST";
                          req_headers := requestHeaders mo;
                          req_body := jwt |}
    ∧ Z.of_nat k <= Z.max 0 (maxAttempts (merged_retry mo))
    ∧ (0 < maxAttempts (merged_retry mo) → (0 < k)%nat).
Proof.
  intros mo Htoken Hurl.
  destruct (transmitSET_trace jwt url href options Htoken Hurl w)
    as (completion & w' & k & j & waited & Hrun & Hk & Hpos & _ & Hrq & _).
  exists completion, w', k. repeat split; try done. fold mo in Hk. lia.
Qed.

Lemma transmitSET_dispatches_witness :
  ∃ completion w' (k : nat),
    @transmitSET Reference.runtime sampleToken sampleURL (withMaxAttempts 3)
      (initial network503_502_200 half epoch) = (completion, w')
    ∧ requests w'
      = replicate k {| req_url := sampleURL; req_method := "POST";
                       req_headers :=
                         requestHeaders (mergeOptions (withMaxAttempts 3));
                       req_body := sampleToken |}
    ∧ Z.of_nat k <= 3
    ∧ (0 < k)%nat.
Proof.
  destruct (@transmitSET_dispatches Reference.runtime sampleToken sampleURL
              sampleURL (withMaxAttempts 3)
              (initial network503_502_200 half epoch))
    as (completion & w' & k & Hrun & Hrq & Hk & Hpos);
    [reflexivity|reflexivity|].
  exists completion, w', k. repeat split; [exact Hrun|exact Hrq|exact Hk|].
  apply Hpos. reflexivity.
Defined.

(** X9.  Every success that a call returns carries a status code that the
    acceptance predicate in force accepts, no error text and no retryable
    flag.  Every failure that a call returns carries an error text and a
    retryable flag, and, when the call ends before it has made all of its
    maxAttempts dispatches, a status code that the predicate does not
    accept. *)
Theorem transmitSET_outcome_coherent `{Runtime} (jwt url : string)
    (options : TransmitOptions) (w : World) :
  ∃ completion w' sent,
    transmitSET jwt url options w = (completion, w')
    ∧ requests w' = requests w ++ sent
    ∧ match completion with
      | Normal result =>
          let accepts := merged_validateStatus (mergeOptions options) in
          let cap := maxAttempts (merged_retry (mergeOptions options)) in
          match status result with
          | success =>
              accepts (statusCode result) = true
              ∧ error result = None ∧ retryable result = None
          | failed =>
              is_Some (error result) ∧ is_Some (retryable result)
              ∧ (Z.of_nat (length sent) < cap →
                 accepts (statusCode result) = false)
          end
      | Abrupt _ => True
      end.
Proof.
  destruct (transmitSET_trace_total jwt url options w)
    as (completion & w' & sent & j & waited & Hrun & Hrq & _ & _ & _ & _
        & Hret).
  exists completion, w', sent. split; [done|]. split; [done|].
  destruct completion as [result|t]; [|done].
  unfold coherent in Hret. cbv zeta.
  destruct (status result); [done|].
  destruct Hret as (Hv & He & Hr). by repeat split.
Qed.

(** X10.  When a call ends, the body of every response it obtained has been
    read, and the responses that existed before the call are as they
    were; there are at most as many responses as requests. *)
Theorem transmitSET_reads_every_body `{Runtime} (jwt url : string)
    (options : TransmitOptions) (w : World) :
  ∃ completion w' sent (obtained : nat),
    transmitSET jwt url options w = (completion, w')
    ∧ requests w' = requests w ++ sent
    ∧ bodyUsed w' = bodyUsed w ++ replicate obtained true
    ∧ (obtained ≤ length sent)%nat.
Proof.
  destruct (transmitSET_trace_total jwt url options w)
    as (completion & w' & sent & j & waited & Hrun & Hrq & Hused & Hj & _).
  by exists completion, w', sent, j.
Qed.

(** X11.  The waits that a call adds are one fewer than the requests it
    adds, and none when it sends nothing: there is a wait for every request
    but the last. *)
Theorem transmitSET_waits_between_requests `{Runtime} (jwt url : string)
    (options : TransmitOptions) (w : World) :
  ∃ completion w' sent waited,
    transmitSET jwt url options w = (completion, w')
    ∧ requests w' = requests w ++ sent
    ∧ sleeps w' = sleeps w ++ waited
    ∧ length waited = (length sent - 1)%nat.
Proof.
  destruct (transmitSET_trace_total jwt url options w)
    as (completion & w' & sent & j & waited & Hrun & Hrq & _ & _ & Hsl & Hlen
        & _).
  by exists completion, w', sent, waited.
Qed.

(** * Further properties of the outcome of a call *)

(** X12.  When every dispatch of a call is rejected, the error that the
    call raises is decided by the last rejection alone: a TimeoutError
    that names the timeout in force when the rejection is an [Error] named
    AbortError, a NetworkError that quotes the message of any other
    [Error], and a NetworkError with a fixed message for a rejection that
    is not an [Error]. *)
Theorem exhausted_transport_error `{Runtime} (jwt url href : string)
    (options : TransmitOptions) (w : World) (reason : Thrown) :
  let mo := mergeOptions options in
  let n := Z.to_nat (maxAttempts (merged_retry mo)) in
  isValidSET jwt = true → URL_parse url = Some href →
  (0 < n)%nat →
  (∀ i, (i < n)%nat → rejected (upcoming w i)) →
  upcoming w (n - 1) = Rejects reason →
  ∃ e w',
    transmitSET jwt url options w = (Abrupt (ThrowError e), w')
    ∧ match reason with
      | ThrowError cause =>
          if bool_decide (name cause = "AbortError") then
            cls e = TimeoutError ∧ name e = "TimeoutError"
            ∧ message e = "Request timed out (timeout: "
                          +:+ pretty (merged_timeout mo) +:+ "ms)"
          else
            cls e = NetworkError ∧ name e = "NetworkError"
            ∧ message e = "Network error: " +:+ message cause
      | ThrowValue _ =>
          cls e = NetworkError ∧ name e = "NetworkError"
          ∧ message e = "Unknown network error"
      end.
Proof.
  intros mo n Htoken Hurl Hn Hall Hlast.
  destruct (loop_exhausted jwt href options (entered w))
    as (w1 & Hloop & _ & _ & Herr & _ & Hrej).
  { intros i Hi. apply rejected_continues. by apply Hall. }
  destruct Hrej as [Hlr _]; [done|].
  rewrite (transmitSET_enter jwt url href options Htoken Hurl), Hloop.
  rewrite afterLoop_empty by done.
  rewrite (Herr reason Hn Hlast). fold mo.
  eexists _, w1. split; [reflexivity|]. simpl.
  destruct reason as [cause|repr]; simpl; [|done].
  by destruct (bool_decide (name cause = "AbortError")).
Qed.

Lemma exhausted_transport_error_witness :
  ∃ e w',
    @transmitSET Reference.runtime sampleToken sampleURL (withMaxAttempts 2)
      (initial (always (Rejects (ThrowError {| cls := PlainError;
                                                name := "AbortError";
                                                message := "aborted" |})))
               half epoch)
    = (Abrupt (ThrowError e), w')
    ∧ cls e = TimeoutError
    ∧ message e = "Request timed out (timeout: 30000ms)".
Proof.
  destruct (@exhausted_transport_error Reference.runtime sampleToken sampleURL
              sampleURL (withMaxAttempts 2)
              (initial (always (Rejects (ThrowError {| cls := PlainError;
                                                        name := "AbortError";
                                                        message := "aborted" |})))
                       half epoch)
              (ThrowError {| cls := PlainError; name := "AbortError";
                             message := "aborted" |}))
    as (e & w' & Hrun & Hcls & _ & Hmsg).
  - reflexivity.
  - reflexivity.
  - simpl. lia.
  - intros i _. by eexists.
  - reflexivity.
  - exists e, w'. split; [exact Hrun|]. split; [exact Hcls|exact Hmsg].
Defined.

(** X13.  With a valid token and URL but a maxAttempts that is zero or
    negative, the call sends nothing, reads nothing and waits for nothing,
    and raises a TransmissionError that reports a failure after all retry
    attempts. *)
Theorem no_attempt_allowed `{Runtime} (jwt url href : string)
    (options : TransmitOptions) (w : World) :
  isValidSET jwt = true → URL_parse url = Some href →
  maxAttempts (merged_retry (mergeOptions options)) <= 0 →
  ∃ w',
    transmitSET jwt url options w
    = (Abrupt (ThrowError
                 {| cls := TransmissionError; name := "TransmissionError";
                    message :=
                      "Failed to transmit SET after all retry attempts" |}),
       w')
    ∧ requests w' = requests w ∧ bodyUsed w' = bodyUsed w
    ∧ sleeps w' = sleeps w.
Proof.
  intros Htoken Hurl Hcap.
  rewrite (transmitSET_enter jwt url href options Htoken Hurl).
  rewrite seqZ_nil by done. simpl.
  rewrite afterLoop_empty by done.
  by exists (entered w).
Qed.

Lemma no_attempt_allowed_witness :
  ∃ w',
    @transmitSET Reference.runtime sampleToken sampleURL (withMaxAttempts 0)
      (initial network503_502_200 half epoch)
    = (Abrupt (ThrowError
                 {| cls := TransmissionError; name := "TransmissionError";
                    message :=
                      "Failed to transmit SET after all retry attempts" |}),
       w')
    ∧ requests w' = [] ∧ bodyUsed w' = [] ∧ sleeps w' = [].
Proof.
  apply (@no_attempt_allowed Reference.runtime sampleToken sampleURL sampleURL
           (withMaxAttempts 0) (initial network503_502_200 half epoch)).
  - reflexivity.
  - reflexivity.
  - simpl. lia.
Defined.

Lemma parseRetryAfter_integer `{Runtime} (header : string) (n : Z)
    (w : World) :
  Num.parseInt header = Some n →
  parseRetryAfter (Some header) w = (Normal (Some (n * 1000)), w).
Proof.
  intros Hn. unfold parseRetryAfter.
  destruct header as [|c rest]; [done|]. cbn [Js.truthy negb].
  by rewrite Hn.
Qed.

(** X14.  When a pass of the loop retries a response whose Retry-After
    header begins with an integer (as [parseInt] reads it), it waits once:
    for the smaller of maxBackoffMs and 1000 times that number of seconds,
    without drawing a random number, when the number is positive; and for
    the jittered backoff of a response without the header when the number
    is zero or negative. *)
Theorem retryAfter_seconds_honoured `{Runtime} (jwt href : string)
    (mergedOptions : MergedOptions) (hdrs : gmap string string)
    (attempt : Z) (w : World) (reply : Reply) (header : string)
    (seconds : Z) :
  network w (length (requests w)) = Resolves reply →
  merged_validateStatus mergedOptions (reply_status reply) = false →
  shouldRetry (Some (reply_status reply)) attempt (merged_retry mergedOptions)
  = true →
  parseResponseHeaders (reply_headers reply) !! "retry-after" = Some header →
  Num.parseInt header = Some seconds →
  ∃ w' ms,
    attemptOnce jwt href mergedOptions hdrs attempt w = (Normal Continue, w')
    ∧ sleeps w' = sleeps w ++ [ms]
    ∧ (0 < seconds →
       ms = Qmin (inject_Z (seconds * 1000))
                 (maxBackoffMs (merged_retry mergedOptions))
       ∧ draws w' = draws w)
    ∧ (seconds <= 0 →
       fst (calculateBackoff attempt (merged_retry mergedOptions) None w)
       = Normal ms
       ∧ draws w' = S (draws w)).
Proof.
  intros Hnet Hv Hretry Hheader Hnum.
  unfold attemptOnce, try_catch, bind, modify, throw, ret, fetch, delay.
  rewrite Hnet.
  rewrite parseResponseBody_fresh
    by (simpl; by rewrite lookup_app_r, Nat.sub_diag by done).
  cbn [Response.status Response.headers Response.payload Response.ref].
  rewrite Hv, Hretry. cbn [negb]. rewrite Hheader.
  rewrite (parseRetryAfter_integer header seconds) by done.
  cbn [fmap option_fmap option_map].
  destruct (decide (0 < seconds)) as [Hpos|Hneg].
  - assert (0 < inject_Z (seconds * 1000))%Q as Hq.
    { rewrite <- (Zlt_Qlt 0). lia. }
    unfold calculateBackoff. rewrite (proj2 (gt_spec _ 0) Hq).
    eexists _, _. split; [reflexivity|]. split; [done|].
    split; [done|]. intros ?. lia.
  - rewrite (calculateBackoff_jittered attempt _ (Some _)).
    2: { rewrite <- (Zle_Qle _ 0). lia. }
    eexists _, _. split; [reflexivity|]. split; [done|].
    split; [intros ?; lia|]. intros _.
    by rewrite (calculateBackoff_jittered attempt _ None).
Qed.

Lemma retryAfter_seconds_honoured_witness :
  ∃ w' ms,
    @attemptOnce Reference.runtime sampleToken sampleURL
      (mergeOptions no_options) (requestHeaders (mergeOptions no_options)) 1
      (initial (always (Resolves (tooManyRequests "2"))) half epoch)
    = (Normal Continue, w')
    ∧ sleeps w' = [ms] ∧ ms = 2000%Q ∧ draws w' = 0%nat.
Proof.
  destruct (@retryAfter_seconds_honoured Reference.runtime sampleToken sampleURL
              (mergeOptions no_options) (requestHeaders (mergeOptions no_options))
              1
              (initial (always (Resolves (tooManyRequests "2"))) half epoch)
              (tooManyRequests "2") "2" 2)
    as (w' & ms & Hrun & Hsl & Hpos & _);
    [reflexivity|reflexivity|reflexivity|reflexivity|reflexivity|].
  destruct Hpos as [-> Hd]; [reflexivity|].
  exists w', 2000%Q. split; [exact Hrun|]. split; [exact Hsl|].
  split; [reflexivity|exact Hd].
Defined.

(** X15.  When a pass of the loop retries a response whose Retry-After
    header has no leading integer and is a date for the runtime, it reads
    the clock once and waits once: for the smaller of maxBackoffMs and the
    time left until that date, without drawing a random number, when the
    date is in the future; and for the jittered backoff of a response
    without the header when it is not. *)
Theorem retryAfter_date_honoured `{Runtime} (jwt href : string)
    (mergedOptions : MergedOptions) (hdrs : gmap string string)
    (attempt : Z) (w : World) (reply : Reply) (header : string)
    (retryDate : Z) :
  network w (length (requests w)) = Resolves reply →
  merged_validateStatus mergedOptions (reply_status reply) = false →
  shouldRetry (Some (reply_status reply)) attempt (merged_retry mergedOptions)
  = true →
  parseResponseHeaders (reply_headers reply) !! "retry-after" = Some header →
  header ≠ EmptyString →
  Num.parseInt header = None →
  Date_parse header = Some retryDate →
  let now := clock w (readings w) in
  ∃ w' ms,
    attemptOnce jwt href mergedOptions hdrs attempt w = (Normal Continue, w')
    ∧ sleeps w' = sleeps w ++ [ms]
    ∧ readings w' = S (readings w)
    ∧ (now < retryDate →
       ms = Qmin (inject_Z (retryDate - now))
                 (maxBackoffMs (merged_retry mergedOptions))
       ∧ draws w' = draws w)
    ∧ (retryDate <= now →
       fst (calculateBackoff attempt (merged_retry mergedOptions) None w)
       = Normal ms
       ∧ draws w' = S (draws w)).
Proof.
  intros Hnet Hv Hretry Hheader Hne Hnum Hdate now.
  unfold attemptOnce, try_catch, bind, modify, throw, ret, fetch, delay.
  rewrite Hnet.
  rewrite parseResponseBody_fresh
    by (simpl; by rewrite lookup_app_r, Nat.sub_diag by done).
  cbn [Response.status Response.headers Response.payload Response.ref].
  rewrite Hv, Hretry. cbn [negb]. rewrite Hheader.
  unfold parseRetryAfter.
  destruct header as [|c rest]; [done|].
  cbn [Js.truthy negb]. rewrite Hnum, Hdate.
  unfold bind, Date_now, ret. cbn [readings clock set_bodyUsed set_lastResponse
                                   set_requests].
  fold now.
  destruct (0 <? retryDate - now) eqn:Hfuture;
    cbn [fmap option_fmap option_map].
  - apply Z.ltb_lt in Hfuture.
    assert (0 < inject_Z (retryDate - now))%Q as Hq.
    { rewrite <- (Zlt_Qlt 0). lia. }
    unfold calculateBackoff. rewrite (proj2 (gt_spec _ 0) Hq).
    eexists _, _. split; [reflexivity|]. split; [done|].
    split; [done|]. split; [done|]. intros ?. lia.
  - apply Z.ltb_ge in Hfuture.
    rewrite (calculateBackoff_jittered attempt _ None) by done.
    eexists _, _. split; [reflexivity|]. split; [done|].
    split; [done|]. split; [intros; lia|]. intros _.
    by rewrite (calculateBackoff_jittered attempt _ None).
Qed.

Lemma retryAfter_date_honoured_witness :
  ∃ w' ms,
    @attemptOnce Reference.runtime sampleToken sampleURL
      (mergeOptions no_options) (requestHeaders (mergeOptions no_options)) 1
      (initial (always (Resolves (tooManyRequests
                                    "Thu, 01 Jan 1970 00:00:03 GMT")))
               half epoch)
    = (Normal Continue, w')
    ∧ sleeps w' = [ms] ∧ ms = 3000%Q ∧ draws w' = 0%nat.
Proof.
  destruct (@retryAfter_date_honoured Reference.runtime sampleToken sampleURL
              (mergeOptions no_options) (requestHeaders (mergeOptions no_options))
              1
              (initial (always (Resolves (tooManyRequests
                                            "Thu, 01 Jan 1970 00:00:03 GMT")))
                       half epoch)
              (tooManyRequests "Thu, 01 Jan 1970 00:00:03 GMT")
              "Thu, 01 Jan 1970 00:00:03 GMT" 3000)
    as (w' & ms & Hrun & Hsl & _ & Hfuture & _);
    [reflexivity|reflexivity|reflexivity|reflexivity|discriminate
    |reflexivity|vm_compute; reflexivity|].
  destruct Hfuture as [-> Hd]; [reflexivity|].
  exists w', 3000%Q. split; [exact Hrun|]. split; [exact Hsl|].
  split; [reflexivity|exact Hd].
Defined.

(** * Properties of the transmitter factory *)

(** [transmitSET] reads its options through [mergeOptions] only. *)
Lemma transmitSET_merged `{Runtime} (jwt url : string)
    (options options' : TransmitOptions) (w : World) :
  mergeOptions options = mergeOptions options' →
  transmitSET jwt url options w = transmitSET jwt url options' w.
Proof. intros Heq. unfold transmitSET. by rewrite Heq. Qed.

Lemma spread_None_l {A} (later : option A) : spread None later = later.
Proof. by destruct later. Qed.

(** X16.  A transmitter created without defaults is [transmitSET]: called
    with options it behaves as [transmitSET] with these options, called
    without options as [transmitSET] without options.  A transmitter
    created with defaults and called without options behaves as
    [transmitSET] with the defaults. *)
Theorem createTransmitter_plain `{Runtime} (jwt url : string) (w : World) :
  (∀ options,
     createTransmitter None jwt url options w
     = transmitSET jwt url (default no_options options) w)
  ∧ (∀ defaultOptions,
       createTransmitter (Some defaultOptions) jwt url None w
       = transmitSET jwt url defaultOptions w).
Proof.
  split.
  - intros options. unfold createTransmitter. apply transmitSET_merged.
    destruct options as [[token hs t r p v]|]; [|done].
    unfold mergeOptions, transmitterOptions, mergeRetry, spreadRetry; simpl.
    rewrite !spread_None_l, (right_id_L ∅ (∪)). done.
  - intros [token hs t r p v]. unfold createTransmitter.
    apply transmitSET_merged.
    unfold mergeOptions, transmitterOptions, mergeRetry, spreadRetry; simpl.
    by rewrite (left_id_L ∅ (∪)).
Qed.

(** X17.  In a call through a transmitter, what the call gives wins: each
    of the credential, the timeout, the parse flag, the acceptance
    predicate and the five retry settings, when the call gives it a value,
    has that value in force, whatever the transmitter was created with.  A
    header is sent with the value given at the call, else with the value
    given at creation.  A credential, timeout, parse flag or acceptance
    predicate that neither gives has the library default (no credential). *)
Theorem createTransmitter_call_wins (defaultOptions options : TransmitOptions) :
  let mo := mergeOptions
              (transmitterOptions (Some defaultOptions) (Some options)) in
  (∀ v, authToken options = Some v → merged_authToken mo = Some v)
  ∧ (∀ v, timeout options = Some v → merged_timeout mo = v)
  ∧ (∀ v, parseResponse options = Some v → merged_parseResponse mo = v)
  ∧ (∀ v, validateStatus options = Some v → merged_validateStatus mo = v)
  ∧ (∀ given, retry options = Some given →
       (∀ v, Partial.maxAttempts given = Some v →
             maxAttempts (merged_retry mo) = v)
       ∧ (∀ v, Partial.retryableStatuses given = Some v →
               retryableStatuses (merged_retry mo) = v)
       ∧ (∀ v, Partial.backoffMs given = Some v →
               backoffMs (merged_retry mo) = v)
       ∧ (∀ v, Partial.maxBackoffMs given = Some v →
               maxBackoffMs (merged_retry mo) = v)
       ∧ (∀ v, Partial.backoffMultiplier given = Some v →
               backoffMultiplier (merged_retry mo) = v))
  ∧ (∀ key, merged_headers mo !! key
            = match default ∅ (customHeaders options) !! key with
              | Some value => Some value
              | None => default ∅ (customHeaders defaultOptions) !! key
              end)
  ∧ (authToken options = None → authToken defaultOptions = None →
     merged_authToken mo = None)
  ∧ (timeout options = None → timeout defaultOptions = None →
     merged_timeout mo = DEFAULT_timeout)
  ∧ (parseResponse options = None → parseResponse defaultOptions = None →
     merged_parseResponse mo = DEFAULT_parseResponse)
  ∧ (validateStatus options = None → validateStatus defaultOptions = None →
     merged_validateStatus mo = DEFAULT_validateStatus).
Proof.
  intros mo. subst mo.
  destruct defaultOptions as [token hs t r p v],
           options as [token' hs' t' r' p' v'].
  unfold mergeOptions, transmitterOptions, mergeRetry, spreadRetry, spread;
    simpl.
  split; [by intros ? ->|]. split; [by intros ? ->|].
  split; [by intros ? ->|]. split; [by intros ? ->|].
  split. { intros given ->. simpl. repeat split; by intros ? ->. }
  split.
  { intros key. rewrite lookup_union.
    destruct (default ∅ hs' !! key) as [value|].
    - by rewrite union_Some_l.
    - by rewrite (left_id None _). }
  repeat split; by intros -> ->.
Qed.
